(** * AIFi on-chain ledgers: lending pool, remittance, risk oracle, voice registry

    A shallow embedding of the four Solidity contracts of the repository
    ([contracts/AIFiLendingPool.sol], which also carries [AIFiRemittance] and
    [AIFiVoiceInterface], and [contracts/AIRiskOracle.sol]) together with the
    properties of the ledger core.

    Conventions of the embedding:
    - [uint256] and [address] are [N]; Solidity 0.8 checked arithmetic is
      written out ([checked_add] and friends revert instead of wrapping);
    - a Solidity [mapping] is a finite map read through a default-zero
      accessor, so an absent key and a stored zero read the same;
    - an external call either returns the new state or reverts with the
      reason of the failing [require]; a reverted call leaves no state
      behind, which is the all-or-nothing rule of the EVM;
    - [emit] appends to an event log kept in the contract state;
    - the tokens are plain ERC20 ledgers without callbacks, so a call never
      re-enters the ledger and the [nonReentrant] guards never fire. *)

From stdpp Require Import base option gmap strings list fin_maps functions.
From Stdlib Require Import NArith ZArith Lia.

#[local] Open Scope string_scope.
#[local] Open Scope N_scope.

(** ** Results of external calls *)

Inductive result (A : Type) : Type :=
| Ok (a : A)
| Revert (reason : string).
Arguments Ok {A} a.
Arguments Revert {A} reason.

#[global] Instance result_ret : MRet result := λ A, Ok.
#[global] Instance result_bind : MBind result := λ A B f m,
  match m with
  | Ok a => f a
  | Revert r => Revert r
  end.

Definition require (cond : bool) (reason : string) : result unit :=
  if cond then Ok tt else Revert reason.

(** The error taxonomy of the specification, as a classification of the
    revert reasons found in the contracts. *)
Inductive ErrorKind : Type :=
| AuthorizationError
| ValidationError
| StateError
| LiquidityError
| InsufficientFundsError
| TransferError.

Definition state_reasons : list string :=
  [ "Existing loan active"; "No active loan"; "Transfer not pending";
    "Transfer does not exist"; "Command already registered";
    "Command not registered"; "Command not registered or already deactivated";
    "Command not registered or inactive"; "Already authorized";
    "Token already supported"; "Language already supported" ].

Definition authorization_reasons : list string :=
  [ "Ownable: caller is not the owner"; "Not authorized"; "Not oracle updater" ].

Definition funds_reasons : list string :=
  [ "Insufficient balance"; "Insufficient balance for repayment" ].

Definition token_reasons : list string :=
  [ "ERC20: insufficient allowance"; "ERC20: transfer amount exceeds balance";
    "ERC20: transfer to the zero address"; "ERC20: transfer from the zero address";
    "Address: call to non-contract" ].

Definition error_kind (reason : string) : ErrorKind :=
  if bool_decide (reason ∈ state_reasons) then StateError
  else if bool_decide (reason ∈ authorization_reasons) then AuthorizationError
  else if bool_decide (reason = "Insufficient liquidity") then LiquidityError
  else if bool_decide (reason ∈ funds_reasons) then InsufficientFundsError
  else if bool_decide (reason ∈ token_reasons) then TransferError
  else ValidationError.

(** ** Machine integers *)

Abbreviation address := N (only parsing).
Abbreviation uint256 := N (only parsing).

Definition MAX_UINT256 : N := 2 ^ 256 - 1.

(** Solidity 0.8 arithmetic (SafeMath 4.x delegates to it): overflow,
    underflow and division by zero abort the call. *)
Definition checked_add (a b : uint256) : result uint256 :=
  if a + b <=? MAX_UINT256 then Ok (a + b) else Revert "Panic(0x11)".
Definition checked_sub (a b : uint256) : result uint256 :=
  if b <=? a then Ok (a - b) else Revert "Panic(0x11)".
Definition checked_mul (a b : uint256) : result uint256 :=
  if a * b <=? MAX_UINT256 then Ok (a * b) else Revert "Panic(0x11)".
Definition checked_div (a b : uint256) : result uint256 :=
  if b =? 0 then Revert "Panic(0x12)" else Ok (a / b).

(** ** Sums over a mapping *)

Definition map_sum `{Countable K} {V : Type} (f : K → V → N) (m : gmap K V) : N :=
  map_fold (λ k v acc, f k v + acc) 0 m.

(** Transaction context: [msg.sender] and [block.timestamp]. *)
Record Env : Type := mkEnv { msg_sender : address; block_timestamp : uint256 }.

(** ** The ERC20 tokens the ledgers move

    The tokens are external contracts (OpenZeppelin 4.x [ERC20], which
    [AIFiToken] inherits).  Their ledger is modelled after that
    implementation: [_spendAllowance] then [_transfer], an unlimited
    allowance is never decremented. *)
Module Token.

Record ERC20 : Type := mkERC20 {
  balances : gmap address uint256;
  allowances : gmap (address * address) uint256
}.

(** All deployed token contracts, by address. *)
Abbreviation Tokens := (gmap address ERC20).

Definition balance (tk : ERC20) (a : address) : uint256 :=
  default 0 (balances tk !! a).
Definition allowance (tk : ERC20) (holder spender : address) : uint256 :=
  default 0 (allowances tk !! (holder, spender)).

Definition _transfer (from to : address) (amount : uint256) (tk : ERC20) : result ERC20 :=
  require (negb (from =? 0)) "ERC20: transfer from the zero address";;
  require (negb (to =? 0)) "ERC20: transfer to the zero address";;
  let fromBalance := balance tk from in
  require (amount <=? fromBalance) "ERC20: transfer amount exceeds balance";;
  let b1 := <[from := fromBalance - amount]> (balances tk) in
  let b2 := <[to := default 0 (b1 !! to) + amount]> b1 in
  Ok (mkERC20 b2 (allowances tk)).

Definition _spendAllowance (holder spender : address) (amount : uint256) (tk : ERC20) : result ERC20 :=
  let currentAllowance := allowance tk holder spender in
  if currentAllowance =? MAX_UINT256 then Ok tk
  else
    require (amount <=? currentAllowance) "ERC20: insufficient allowance";;
    Ok (mkERC20 (balances tk) (<[(holder, spender) := currentAllowance - amount]> (allowances tk))).

Definition transfer (caller to : address) (amount : uint256) (tk : ERC20) : result ERC20 :=
  _transfer caller to amount tk.

Definition transferFrom (caller from to : address) (amount : uint256) (tk : ERC20) : result ERC20 :=
  tk' ← _spendAllowance from caller amount tk;
  _transfer from to amount tk'.

Definition approve (caller spender : address) (amount : uint256) (tk : ERC20) : result ERC20 :=
  require (negb (caller =? 0)) "ERC20: approve from the zero address";;
  require (negb (spender =? 0)) "ERC20: approve to the zero address";;
  Ok (mkERC20 (balances tk) (<[(caller, spender) := amount]> (allowances tk))).

(** Calls made by a ledger contract at address [caller] on the token at
    address [token] ([IERC20(token).balanceOf], [SafeERC20.safeTransfer],
    [SafeERC20.safeTransferFrom]); an address without code aborts the call. *)
Definition balanceOf (token who : address) (tw : Tokens) : result uint256 :=
  match tw !! token with
  | Some tk => Ok (balance tk who)
  | None => Revert "Address: call to non-contract"
  end.

Definition safeTransfer (caller token to : address) (amount : uint256) (tw : Tokens) : result Tokens :=
  match tw !! token with
  | Some tk => tk' ← transfer caller to amount tk; Ok (<[token := tk']> tw)
  | None => Revert "Address: call to non-contract"
  end.

Definition safeTransferFrom (caller token from to : address) (amount : uint256) (tw : Tokens) : result Tokens :=
  match tw !! token with
  | Some tk => tk' ← transferFrom caller from to amount tk; Ok (<[token := tk']> tw)
  | None => Revert "Address: call to non-contract"
  end.

(** What a holder owns of a token, zero where there is no such token. *)
Definition holding (tw : Tokens) (token who : address) : uint256 :=
  match tw !! token with
  | Some tk => balance tk who
  | None => 0
  end.

End Token.

(** ** AIFiLendingPool *)
Module LendingPool.
Import Token.

Inductive RiskTier : Type := LOW | MEDIUM | HIGH.

#[global] Instance RiskTier_eq_dec : EqDecision RiskTier.
Proof. solve_decision. Defined.

Record Loan : Type := mkLoan {
  amount : uint256;
  timestamp : uint256;
  riskTier : RiskTier;
  active : bool
}.

(** The value an untouched [userLoans] slot reads as. *)
Definition zeroLoan : Loan := mkLoan 0 0 LOW false.

Inductive Event : Type :=
| Deposit (user token : address) (amount : uint256)
| Withdraw (user token : address) (amount : uint256)
| Borrow (user token : address) (amount : uint256) (riskTier : RiskTier)
| Repay (user token : address) (amount interest : uint256)
| TokenAdded (token : address)
| TokenRemoved (token : address)
| InterestRateUpdated (riskTier : RiskTier) (newRate : uint256)
| RiskOracleUpdated (newOracle : address)
| OwnershipTransferred (previousOwner newOwner : address).

Record Pool : Type := mkPool {
  self : address;
  owner : address;
  supportedTokens : gset address;
  interestRates : RiskTier → uint256;
  userDeposits : gmap (address * address) uint256;
  userLoans : gmap (address * address) Loan;
  totalDeposits : gmap address uint256;
  protocolFee : uint256;
  riskAssessmentOracle : address;
  events : list Event
}.

Definition set_owner (v : address) (p : Pool) : Pool :=
  mkPool (self p) v (supportedTokens p) (interestRates p) (userDeposits p)
    (userLoans p) (totalDeposits p) (protocolFee p) (riskAssessmentOracle p) (events p).
Definition set_supportedTokens (v : gset address) (p : Pool) : Pool :=
  mkPool (self p) (owner p) v (interestRates p) (userDeposits p)
    (userLoans p) (totalDeposits p) (protocolFee p) (riskAssessmentOracle p) (events p).
Definition set_interestRates (v : RiskTier → uint256) (p : Pool) : Pool :=
  mkPool (self p) (owner p) (supportedTokens p) v (userDeposits p)
    (userLoans p) (totalDeposits p) (protocolFee p) (riskAssessmentOracle p) (events p).
Definition set_userDeposits (v : gmap (address * address) uint256) (p : Pool) : Pool :=
  mkPool (self p) (owner p) (supportedTokens p) (interestRates p) v
    (userLoans p) (totalDeposits p) (protocolFee p) (riskAssessmentOracle p) (events p).
Definition set_userLoans (v : gmap (address * address) Loan) (p : Pool) : Pool :=
  mkPool (self p) (owner p) (supportedTokens p) (interestRates p) (userDeposits p)
    v (totalDeposits p) (protocolFee p) (riskAssessmentOracle p) (events p).
Definition set_totalDeposits (v : gmap address uint256) (p : Pool) : Pool :=
  mkPool (self p) (owner p) (supportedTokens p) (interestRates p) (userDeposits p)
    (userLoans p) v (protocolFee p) (riskAssessmentOracle p) (events p).
Definition set_riskAssessmentOracle (v : address) (p : Pool) : Pool :=
  mkPool (self p) (owner p) (supportedTokens p) (interestRates p) (userDeposits p)
    (userLoans p) (totalDeposits p) (protocolFee p) v (events p).
Definition emit (ev : Event) (p : Pool) : Pool :=
  mkPool (self p) (owner p) (supportedTokens p) (interestRates p) (userDeposits p)
    (userLoans p) (totalDeposits p) (protocolFee p) (riskAssessmentOracle p) (events p ++ [ev]).

(** Storage reads: [userDeposits[user][token]], [userLoans[user][token]],
    [totalDeposits[token]]. *)
Definition userDeposits_at (p : Pool) (user token : address) : uint256 :=
  default 0 (userDeposits p !! (user, token)).
Definition userLoans_at (p : Pool) (user token : address) : Loan :=
  default zeroLoan (userLoans p !! (user, token)).
Definition totalDeposits_at (p : Pool) (token : address) : uint256 :=
  default 0 (totalDeposits p !! token).

(** The pool together with the token contracts it calls. *)
Record World : Type := mkWorld { pool : Pool; tokens : Tokens }.

(** [constructor(_riskAssessmentOracle)], deployed at [this] by [deployer]. *)
Definition constructor (this deployer _riskAssessmentOracle : address) : Pool :=
  mkPool this deployer ∅
    (λ t, match t with LOW => 500 | MEDIUM => 1000 | HIGH => 1500 end)
    ∅ ∅ ∅ 50 _riskAssessmentOracle [OwnershipTransferred 0 deployer].

Definition onlyOwner (e : Env) (p : Pool) : result unit :=
  require (owner p =? msg_sender e) "Ownable: caller is not the owner".

Definition transferOwnership (e : Env) (newOwner : address) (p : Pool) : result Pool :=
  onlyOwner e p;;
  require (negb (newOwner =? 0)) "Ownable: new owner is the zero address";;
  Ok (emit (OwnershipTransferred (owner p) newOwner) (set_owner newOwner p)).

Definition renounceOwnership (e : Env) (p : Pool) : result Pool :=
  onlyOwner e p;;
  Ok (emit (OwnershipTransferred (owner p) 0) (set_owner 0 p)).

Definition addSupportedToken (e : Env) (_token : address) (p : Pool) : result Pool :=
  onlyOwner e p;;
  require (negb (_token =? 0)) "Invalid token address";;
  require (negb (bool_decide (_token ∈ supportedTokens p))) "Token already supported";;
  Ok (emit (TokenAdded _token) (set_supportedTokens ({[_token]} ∪ supportedTokens p) p)).

Definition removeSupportedToken (e : Env) (_token : address) (p : Pool) : result Pool :=
  onlyOwner e p;;
  require (bool_decide (_token ∈ supportedTokens p)) "Token not supported";;
  Ok (emit (TokenRemoved _token) (set_supportedTokens (supportedTokens p ∖ {[_token]}) p)).

Definition updateInterestRate (e : Env) (_riskTier : RiskTier) (_newRate : uint256) (p : Pool) : result Pool :=
  onlyOwner e p;;
  require (_newRate <=? 5000) "Rate too high";;
  Ok (emit (InterestRateUpdated _riskTier _newRate)
        (set_interestRates (<[_riskTier := _newRate]> (interestRates p)) p)).

Definition updateRiskOracle (e : Env) (_newOracle : address) (p : Pool) : result Pool :=
  onlyOwner e p;;
  require (negb (_newOracle =? 0)) "Invalid oracle address";;
  Ok (emit (RiskOracleUpdated _newOracle) (set_riskAssessmentOracle _newOracle p)).

(** [getRiskTierFromOracle]: the placeholder of the source, a constant. *)
Definition getRiskTierFromOracle (p : Pool) (_user : address) : RiskTier := MEDIUM.

(** [calculateInterest]: the annual rate is first turned into a per-second
    rate scaled by [1e18] (two truncating divisions), then multiplied out. *)
Definition calculateInterest (p : Pool) (_amount _timeElapsed : uint256) (_riskTier : RiskTier) : result uint256 :=
  let annualRate := interestRates p _riskTier in
  r1 ← checked_mul annualRate (10 ^ 18);
  r2 ← checked_div r1 31536000;
  perSecondRate ← checked_div r2 10000;
  i1 ← checked_mul _amount perSecondRate;
  i2 ← checked_mul i1 _timeElapsed;
  checked_div i2 (10 ^ 18).

Definition deposit (e : Env) (_token : address) (_amount : uint256) (w : World) : result World :=
  let p := pool w in
  require (bool_decide (_token ∈ supportedTokens p)) "Token not supported";;
  require (0 <? _amount) "Amount must be greater than 0";;
  tw ← safeTransferFrom (self p) _token (msg_sender e) (self p) _amount (tokens w);
  d ← checked_add (userDeposits_at p (msg_sender e) _token) _amount;
  let p := set_userDeposits (<[(msg_sender e, _token) := d]> (userDeposits p)) p in
  t ← checked_add (totalDeposits_at p _token) _amount;
  let p := set_totalDeposits (<[_token := t]> (totalDeposits p)) p in
  Ok (mkWorld (emit (Deposit (msg_sender e) _token _amount) p) tw).

Definition withdraw (e : Env) (_token : address) (_amount : uint256) (w : World) : result World :=
  let p := pool w in
  require (0 <? _amount) "Amount must be greater than 0";;
  require (_amount <=? userDeposits_at p (msg_sender e) _token) "Insufficient balance";;
  d ← checked_sub (userDeposits_at p (msg_sender e) _token) _amount;
  let p := set_userDeposits (<[(msg_sender e, _token) := d]> (userDeposits p)) p in
  t ← checked_sub (totalDeposits_at p _token) _amount;
  let p := set_totalDeposits (<[_token := t]> (totalDeposits p)) p in
  tw ← safeTransfer (self p) _token (msg_sender e) _amount (tokens w);
  Ok (mkWorld (emit (Withdraw (msg_sender e) _token _amount) p) tw).

Definition borrow (e : Env) (_token : address) (_amount : uint256) (w : World) : result World :=
  let p := pool w in
  require (bool_decide (_token ∈ supportedTokens p)) "Token not supported";;
  require (0 <? _amount) "Amount must be greater than 0";;
  require (_amount <=? totalDeposits_at p _token) "Insufficient liquidity";;
  require (negb (active (userLoans_at p (msg_sender e) _token))) "Existing loan active";;
  let riskTier := getRiskTierFromOracle p (msg_sender e) in
  let p := set_userLoans
             (<[(msg_sender e, _token) := mkLoan _amount (block_timestamp e) riskTier true]> (userLoans p)) p in
  t ← checked_sub (totalDeposits_at p _token) _amount;
  let p := set_totalDeposits (<[_token := t]> (totalDeposits p)) p in
  tw ← safeTransfer (self p) _token (msg_sender e) _amount (tokens w);
  Ok (mkWorld (emit (Borrow (msg_sender e) _token _amount riskTier) p) tw).

Definition repay (e : Env) (_token : address) (w : World) : result World :=
  let p := pool w in
  let loan := userLoans_at p (msg_sender e) _token in
  require (active loan) "No active loan";;
  timeElapsed ← checked_sub (block_timestamp e) (timestamp loan);
  interest ← calculateInterest p (amount loan) timeElapsed (riskTier loan);
  totalRepayment ← checked_add (amount loan) interest;
  bal ← balanceOf _token (msg_sender e) (tokens w);
  require (totalRepayment <=? bal) "Insufficient balance for repayment";;
  tw ← safeTransferFrom (self p) _token (msg_sender e) (self p) totalRepayment (tokens w);
  t ← checked_add (totalDeposits_at p _token) totalRepayment;
  let p := set_totalDeposits (<[_token := t]> (totalDeposits p)) p in
  let p := set_userLoans
             (<[(msg_sender e, _token) := mkLoan (amount loan) (timestamp loan) (riskTier loan) false]>
                (userLoans p)) p in
  Ok (mkWorld (emit (Repay (msg_sender e) _token (amount loan) interest) p) tw).

(** The external interface as a datatype of calls, and the transaction
    semantics: a reverted call leaves the world as it was. *)
Inductive Call : Type :=
| CTransferOwnership (newOwner : address)
| CRenounceOwnership
| CAddSupportedToken (_token : address)
| CRemoveSupportedToken (_token : address)
| CUpdateInterestRate (_riskTier : RiskTier) (_newRate : uint256)
| CUpdateRiskOracle (_newOracle : address)
| CDeposit (_token : address) (_amount : uint256)
| CWithdraw (_token : address) (_amount : uint256)
| CBorrow (_token : address) (_amount : uint256)
| CRepay (_token : address)
| CTokenApprove (token spender : address) (amount : uint256)
| CTokenTransfer (token to : address) (amount : uint256)
| CTokenTransferFrom (token from to : address) (amount : uint256).

Definition on_pool (f : Pool → result Pool) (w : World) : result World :=
  p ← f (pool w); Ok (mkWorld p (tokens w)).

Definition on_token (token : address) (f : ERC20 → result ERC20) (w : World) : result World :=
  match tokens w !! token with
  | Some tk => tk' ← f tk; Ok (mkWorld (pool w) (<[token := tk']> (tokens w)))
  | None => Revert "Address: call to non-contract"
  end.

Definition call (e : Env) (c : Call) (w : World) : result World :=
  match c with
  | CTransferOwnership newOwner => on_pool (transferOwnership e newOwner) w
  | CRenounceOwnership => on_pool (renounceOwnership e) w
  | CAddSupportedToken t => on_pool (addSupportedToken e t) w
  | CRemoveSupportedToken t => on_pool (removeSupportedToken e t) w
  | CUpdateInterestRate t r => on_pool (updateInterestRate e t r) w
  | CUpdateRiskOracle o => on_pool (updateRiskOracle e o) w
  | CDeposit t a => deposit e t a w
  | CWithdraw t a => withdraw e t a w
  | CBorrow t a => borrow e t a w
  | CRepay t => repay e t w
  | CTokenApprove t s a => on_token t (approve (msg_sender e) s a) w
  | CTokenTransfer t to a => on_token t (transfer (msg_sender e) to a) w
  | CTokenTransferFrom t from to a => on_token t (transferFrom (msg_sender e) from to a) w
  end.

Definition step (w : World) (tx : Env * Call) : World :=
  match call tx.1 tx.2 w with
  | Ok w' => w'
  | Revert _ => w
  end.

Definition run (w : World) (txs : list (Env * Call)) : World :=
  foldl step w txs.

End LendingPool.

(** ** keccak256

    The EVM hash primitive used by [generateCommandHash]: Keccak-f[1600]
    with rate 1088 and the original 0x01 padding, over bytes given as
    numbers below 256.  The digest is returned as the [bytes32] value read
    big-endian. *)
Module Keccak.

Definition lane_mask : N := 2 ^ 64 - 1.

Definition rotl64 (x : N) (n : N) : N :=
  N.lor (N.land (N.shiftl x n) lane_mask) (N.shiftr x (64 - n)).

Definition round_constants : list N :=
  [ 0x0000000000000001; 0x0000000000008082; 0x800000000000808A; 0x8000000080008000;
    0x000000000000808B; 0x0000000080000001; 0x8000000080008081; 0x8000000000008009;
    0x000000000000008A; 0x0000000000000088; 0x0000000080008009; 0x000000008000000A;
    0x000000008000808B; 0x800000000000008B; 0x8000000000008089; 0x8000000000008003;
    0x8000000000008002; 0x8000000000000080; 0x000000000000800A; 0x800000008000000A;
    0x8000000080008081; 0x8000000000008080; 0x0000000080000001; 0x8000000080008008 ].

(** Rotation offsets, indexed by [x + 5 * y]. *)
Definition rotation_offsets : list N :=
  [ 0; 1; 62; 28; 27;
    36; 44; 6; 55; 20;
    3; 10; 43; 25; 39;
    41; 45; 15; 21; 8;
    18; 2; 61; 56; 14 ].

Definition lane (st : list N) (x y : nat) : N := nth (x mod 5 + 5 * (y mod 5)) st 0.

Definition coords : list (nat * nat) :=
  y ← seq 0 5; x ← seq 0 5; [(x, y)].

Definition theta (st : list N) : list N :=
  let C x := N.lxor (lane st x 0) (N.lxor (lane st x 1) (N.lxor (lane st x 2) (N.lxor (lane st x 3) (lane st x 4)))) in
  let D x := N.lxor (C (x + 4)%nat) (rotl64 (C (x + 1)%nat) 1) in
  (λ '(x, y), N.lxor (lane st x y) (D x)) <$> coords.

(** [B[y][2x+3y] = rot(A[x][y], r[x][y])], read backwards: the lane at
    [(X, Y)] comes from [x = (X + 3 Y) mod 5], [y = X]. *)
Definition rho_pi (st : list N) : list N :=
  (λ '(X, Y), let x := ((X + 3 * Y) mod 5)%nat in let y := X in
              rotl64 (lane st x y) (nth (x + 5 * y) rotation_offsets 0)) <$> coords.

Definition chi (st : list N) : list N :=
  (λ '(x, y), N.lxor (lane st x y) (N.ldiff (lane st (x + 2) y) (lane st (x + 1) y))) <$> coords.

Definition iota (rc : N) (st : list N) : list N :=
  match st with
  | a :: rest => N.lxor a rc :: rest
  | [] => []
  end.

Definition keccak_round (st : list N) (rc : N) : list N :=
  iota rc (chi (rho_pi (theta st))).

Definition keccak_f (st : list N) : list N := foldl keccak_round st round_constants.

Definition rate_bytes : nat := 136.

(** pad10*1 with the Keccak domain byte [0x01] (not SHA-3's [0x06]). *)
Definition pad (msg : list N) : list N :=
  let q := (rate_bytes - length msg mod rate_bytes)%nat in
  if (q =? 1)%nat then msg ++ [0x81]
  else msg ++ [0x01] ++ replicate (q - 2) 0 ++ [0x80].

Fixpoint le_lane (bs : list N) : N :=
  match bs with
  | [] => 0
  | b :: bs => b + 256 * le_lane bs
  end.

Fixpoint lanes_of (n : nat) (bs : list N) : list N :=
  match n with
  | O => []
  | S n => le_lane (take 8 bs) :: lanes_of n (drop 8 bs)
  end.

Definition absorb_block (st : list N) (block : list N) : list N :=
  keccak_f (zip_with N.lxor st (lanes_of 17 block ++ replicate 8 0)).

Fixpoint absorb (fuel : nat) (st : list N) (bs : list N) : list N :=
  match fuel with
  | O => st
  | S fuel =>
      match bs with
      | [] => st
      | _ => absorb fuel (absorb_block st (take rate_bytes bs)) (drop rate_bytes bs)
      end
  end.

Definition lane_bytes (l : N) : list N :=
  (λ i, N.shiftr l (8 * N.of_nat i) mod 256) <$> seq 0 8.

Definition keccak256_bytes (msg : list N) : list N :=
  let p := pad msg in
  let st := absorb (length p) (replicate 25 0) p in
  take 32 (st ≫= lane_bytes).

Definition be_value (bs : list N) : N := foldl (λ acc b, acc * 256 + b) 0 bs.

Definition bytes_of_string (s : string) : list N :=
  (λ c, Ascii.N_of_ascii c) <$> String.list_ascii_of_string s.

Definition keccak256 (msg : list N) : N := be_value (keccak256_bytes msg).

End Keccak.

(** ** AIFiRemittance *)
Module Remittance.
Import Token.

Inductive TransferStatus : Type := PENDING | COMPLETED | CANCELLED.

#[global] Instance TransferStatus_eq_dec : EqDecision TransferStatus.
Proof. solve_decision. Defined.

Record Transfer : Type := mkTransfer {
  id : uint256;
  sender : address;
  recipientId : string;
  tokenAddress : address;
  amount : uint256;
  fee : uint256;
  originCountry : string;
  destinationCountry : string;
  timestamp : uint256;
  status : TransferStatus
}.

(** The value an untouched [transfers] slot reads as. *)
Definition zeroTransfer : Transfer :=
  mkTransfer 0 0 EmptyString 0 0 0 EmptyString EmptyString 0 PENDING.

Definition set_status (st : TransferStatus) (t : Transfer) : Transfer :=
  mkTransfer (id t) (sender t) (recipientId t) (tokenAddress t) (amount t) (fee t)
    (originCountry t) (destinationCountry t) (timestamp t) st.

Inductive Event : Type :=
| TokenAdded (token : address)
| TokenRemoved (token : address)
| CorridorFeeUpdated (origin destination : string) (fee : uint256)
| DefaultFeeUpdated (fee : uint256)
| TransferInitiated (id : uint256) (sender : address) (recipientId : string)
    (tokenAddress : address) (amount fee : uint256)
| TransferCompleted (id : uint256)
| TransferCancelled (id : uint256)
| TreasuryUpdated (newTreasury : address)
| TransferLimitsUpdated (minAmount maxAmount : uint256)
| OwnershipTransferred (previousOwner newOwner : address).

Record Ledger : Type := mkLedger {
  self : address;
  owner : address;
  supportedTokens : gset address;
  corridorFees : gmap (string * string) uint256;
  defaultFee : uint256;
  minTransferAmount : uint256;
  maxTransferAmount : uint256;
  transferCounter : uint256;
  transfers : gmap uint256 Transfer;
  userTransfers : gmap address (list uint256);
  treasury : address;
  events : list Event
}.

Definition set_owner (v : address) (l : Ledger) : Ledger :=
  mkLedger (self l) v (supportedTokens l) (corridorFees l) (defaultFee l)
    (minTransferAmount l) (maxTransferAmount l) (transferCounter l) (transfers l)
    (userTransfers l) (treasury l) (events l).
Definition set_supportedTokens (v : gset address) (l : Ledger) : Ledger :=
  mkLedger (self l) (owner l) v (corridorFees l) (defaultFee l)
    (minTransferAmount l) (maxTransferAmount l) (transferCounter l) (transfers l)
    (userTransfers l) (treasury l) (events l).
Definition set_corridorFees (v : gmap (string * string) uint256) (l : Ledger) : Ledger :=
  mkLedger (self l) (owner l) (supportedTokens l) v (defaultFee l)
    (minTransferAmount l) (maxTransferAmount l) (transferCounter l) (transfers l)
    (userTransfers l) (treasury l) (events l).
Definition set_defaultFee (v : uint256) (l : Ledger) : Ledger :=
  mkLedger (self l) (owner l) (supportedTokens l) (corridorFees l) v
    (minTransferAmount l) (maxTransferAmount l) (transferCounter l) (transfers l)
    (userTransfers l) (treasury l) (events l).
Definition set_limits (lo hi : uint256) (l : Ledger) : Ledger :=
  mkLedger (self l) (owner l) (supportedTokens l) (corridorFees l) (defaultFee l)
    lo hi (transferCounter l) (transfers l)
    (userTransfers l) (treasury l) (events l).
Definition set_transferCounter (v : uint256) (l : Ledger) : Ledger :=
  mkLedger (self l) (owner l) (supportedTokens l) (corridorFees l) (defaultFee l)
    (minTransferAmount l) (maxTransferAmount l) v (transfers l)
    (userTransfers l) (treasury l) (events l).
Definition set_transfers (v : gmap uint256 Transfer) (l : Ledger) : Ledger :=
  mkLedger (self l) (owner l) (supportedTokens l) (corridorFees l) (defaultFee l)
    (minTransferAmount l) (maxTransferAmount l) (transferCounter l) v
    (userTransfers l) (treasury l) (events l).
Definition set_userTransfers (v : gmap address (list uint256)) (l : Ledger) : Ledger :=
  mkLedger (self l) (owner l) (supportedTokens l) (corridorFees l) (defaultFee l)
    (minTransferAmount l) (maxTransferAmount l) (transferCounter l) (transfers l)
    v (treasury l) (events l).
Definition set_treasury (v : address) (l : Ledger) : Ledger :=
  mkLedger (self l) (owner l) (supportedTokens l) (corridorFees l) (defaultFee l)
    (minTransferAmount l) (maxTransferAmount l) (transferCounter l) (transfers l)
    (userTransfers l) v (events l).
Definition emit (ev : Event) (l : Ledger) : Ledger :=
  mkLedger (self l) (owner l) (supportedTokens l) (corridorFees l) (defaultFee l)
    (minTransferAmount l) (maxTransferAmount l) (transferCounter l) (transfers l)
    (userTransfers l) (treasury l) (events l ++ [ev]).

(** Storage reads: [corridorFees[origin][destination]], [transfers[id]],
    [userTransfers[user]]. *)
Definition corridorFees_at (l : Ledger) (origin destination : string) : uint256 :=
  default 0 (corridorFees l !! (origin, destination)).
Definition transfers_at (l : Ledger) (transferId : uint256) : Transfer :=
  default zeroTransfer (transfers l !! transferId).
Definition userTransfers_at (l : Ledger) (user : address) : list uint256 :=
  default [] (userTransfers l !! user).

Record World : Type := mkWorld { ledger : Ledger; tokens : Tokens }.

(** [bytes(s).length > 0]. *)
Definition nonempty (s : string) : bool := (0 <? String.length s)%nat.

Definition constructor (this deployer _treasury : address) : result Ledger :=
  require (negb (_treasury =? 0)) "Invalid treasury address";;
  Ok (mkLedger this deployer ∅ ∅ 50 (10 * 10 ^ 18) (10000 * 10 ^ 18) 1 ∅ ∅ _treasury
        [OwnershipTransferred 0 deployer]).

Definition onlyOwner (e : Env) (l : Ledger) : result unit :=
  require (owner l =? msg_sender e) "Ownable: caller is not the owner".

Definition transferOwnership (e : Env) (newOwner : address) (l : Ledger) : result Ledger :=
  onlyOwner e l;;
  require (negb (newOwner =? 0)) "Ownable: new owner is the zero address";;
  Ok (emit (OwnershipTransferred (owner l) newOwner) (set_owner newOwner l)).

Definition renounceOwnership (e : Env) (l : Ledger) : result Ledger :=
  onlyOwner e l;;
  Ok (emit (OwnershipTransferred (owner l) 0) (set_owner 0 l)).

Definition addSupportedToken (e : Env) (_token : address) (l : Ledger) : result Ledger :=
  onlyOwner e l;;
  require (negb (_token =? 0)) "Invalid token address";;
  require (negb (bool_decide (_token ∈ supportedTokens l))) "Token already supported";;
  Ok (emit (TokenAdded _token) (set_supportedTokens ({[_token]} ∪ supportedTokens l) l)).

Definition removeSupportedToken (e : Env) (_token : address) (l : Ledger) : result Ledger :=
  onlyOwner e l;;
  require (bool_decide (_token ∈ supportedTokens l)) "Token not supported";;
  Ok (emit (TokenRemoved _token) (set_supportedTokens (supportedTokens l ∖ {[_token]}) l)).

Definition updateCorridorFee (e : Env) (_origin _destination : string) (_fee : uint256) (l : Ledger) : result Ledger :=
  onlyOwner e l;;
  require (nonempty _origin) "Invalid origin";;
  require (nonempty _destination) "Invalid destination";;
  require (_fee <=? 500) "Fee too high";;
  Ok (emit (CorridorFeeUpdated _origin _destination _fee)
        (set_corridorFees (<[(_origin, _destination) := _fee]> (corridorFees l)) l)).

Definition updateDefaultFee (e : Env) (_fee : uint256) (l : Ledger) : result Ledger :=
  onlyOwner e l;;
  require (_fee <=? 500) "Fee too high";;
  Ok (emit (DefaultFeeUpdated _fee) (set_defaultFee _fee l)).

Definition updateTransferLimits (e : Env) (_minAmount _maxAmount : uint256) (l : Ledger) : result Ledger :=
  onlyOwner e l;;
  require (_minAmount <? _maxAmount) "Invalid limits";;
  Ok (emit (TransferLimitsUpdated _minAmount _maxAmount) (set_limits _minAmount _maxAmount l)).

Definition updateTreasury (e : Env) (_newTreasury : address) (l : Ledger) : result Ledger :=
  onlyOwner e l;;
  require (negb (_newTreasury =? 0)) "Invalid treasury address";;
  Ok (emit (TreasuryUpdated _newTreasury) (set_treasury _newTreasury l)).

Definition calculateFee (l : Ledger) (_origin _destination : string) (_amount : uint256) : result uint256 :=
  let feeRate := corridorFees_at l _origin _destination in
  let feeRate := if feeRate =? 0 then defaultFee l else feeRate in
  m ← checked_mul _amount feeRate;
  checked_div m 10000.

Definition initiateTransfer (e : Env) (_tokenAddress : address) (_amount : uint256)
    (_recipientId _originCountry _destinationCountry : string) (w : World) : result (World * uint256) :=
  let l := ledger w in
  require (bool_decide (_tokenAddress ∈ supportedTokens l)) "Token not supported";;
  require (minTransferAmount l <=? _amount) "Amount below minimum";;
  require (_amount <=? maxTransferAmount l) "Amount above maximum";;
  require (nonempty _recipientId) "Invalid recipient ID";;
  require (nonempty _originCountry) "Invalid origin country";;
  require (nonempty _destinationCountry) "Invalid destination country";;
  fee ← calculateFee l _originCountry _destinationCountry _amount;
  totalAmount ← checked_add _amount fee;
  bal ← balanceOf _tokenAddress (msg_sender e) (tokens w);
  require (totalAmount <=? bal) "Insufficient balance";;
  let transferId := transferCounter l in
  c ← checked_add (transferCounter l) 1;
  let l := set_transferCounter c l in
  let l := set_transfers
             (<[transferId := mkTransfer transferId (msg_sender e) _recipientId _tokenAddress
                                _amount fee _originCountry _destinationCountry
                                (block_timestamp e) PENDING]> (transfers l)) l in
  let l := set_userTransfers
             (<[msg_sender e := (userTransfers_at l (msg_sender e) ++ [transferId])%list]> (userTransfers l)) l in
  tw ← safeTransferFrom (self l) _tokenAddress (msg_sender e) (self l) totalAmount (tokens w);
  tw ← safeTransfer (self l) _tokenAddress (treasury l) fee tw;
  Ok (mkWorld (emit (TransferInitiated transferId (msg_sender e) _recipientId _tokenAddress _amount fee) l) tw,
      transferId).

Definition completeTransfer (e : Env) (_transferId : uint256) (l : Ledger) : result Ledger :=
  onlyOwner e l;;
  let transfer := transfers_at l _transferId in
  require (id transfer =? _transferId) "Transfer does not exist";;
  require (bool_decide (status transfer = PENDING)) "Transfer not pending";;
  let l := set_transfers (<[_transferId := set_status COMPLETED transfer]> (transfers l)) l in
  Ok (emit (TransferCompleted _transferId) l).

Definition cancelTransfer (e : Env) (_transferId : uint256) (w : World) : result World :=
  let l := ledger w in
  let transfer := transfers_at l _transferId in
  require (id transfer =? _transferId) "Transfer does not exist";;
  require (bool_decide (status transfer = PENDING)) "Transfer not pending";;
  require ((msg_sender e =? sender transfer) || (msg_sender e =? owner l)) "Not authorized";;
  let l := set_transfers (<[_transferId := set_status CANCELLED transfer]> (transfers l)) l in
  tw ← safeTransfer (self l) (tokenAddress transfer) (sender transfer) (amount transfer) (tokens w);
  Ok (mkWorld (emit (TransferCancelled _transferId) l) tw).

Definition getTransfer (l : Ledger) (_transferId : uint256) : result Transfer :=
  let transfer := transfers_at l _transferId in
  require (id transfer =? _transferId) "Transfer does not exist";;
  Ok transfer.

Definition getUserTransfers (l : Ledger) (_user : address) : list uint256 :=
  userTransfers_at l _user.

Inductive Call : Type :=
| CTransferOwnership (newOwner : address)
| CRenounceOwnership
| CAddSupportedToken (_token : address)
| CRemoveSupportedToken (_token : address)
| CUpdateCorridorFee (_origin _destination : string) (_fee : uint256)
| CUpdateDefaultFee (_fee : uint256)
| CUpdateTransferLimits (_minAmount _maxAmount : uint256)
| CUpdateTreasury (_newTreasury : address)
| CInitiateTransfer (_tokenAddress : address) (_amount : uint256)
    (_recipientId _originCountry _destinationCountry : string)
| CCompleteTransfer (_transferId : uint256)
| CCancelTransfer (_transferId : uint256)
| CTokenApprove (token spender : address) (amount : uint256)
| CTokenTransfer (token to : address) (amount : uint256)
| CTokenTransferFrom (token from to : address) (amount : uint256).

Definition on_ledger (f : Ledger → result Ledger) (w : World) : result World :=
  l ← f (ledger w); Ok (mkWorld l (tokens w)).

Definition on_token (token : address) (f : ERC20 → result ERC20) (w : World) : result World :=
  match tokens w !! token with
  | Some tk => tk' ← f tk; Ok (mkWorld (ledger w) (<[token := tk']> (tokens w)))
  | None => Revert "Address: call to non-contract"
  end.

Definition call (e : Env) (c : Call) (w : World) : result World :=
  match c with
  | CTransferOwnership newOwner => on_ledger (transferOwnership e newOwner) w
  | CRenounceOwnership => on_ledger (renounceOwnership e) w
  | CAddSupportedToken t => on_ledger (addSupportedToken e t) w
  | CRemoveSupportedToken t => on_ledger (removeSupportedToken e t) w
  | CUpdateCorridorFee o d f => on_ledger (updateCorridorFee e o d f) w
  | CUpdateDefaultFee f => on_ledger (updateDefaultFee e f) w
  | CUpdateTransferLimits lo hi => on_ledger (updateTransferLimits e lo hi) w
  | CUpdateTreasury t => on_ledger (updateTreasury e t) w
  | CInitiateTransfer t a r o d => r ← initiateTransfer e t a r o d w; Ok r.1
  | CCompleteTransfer i => on_ledger (completeTransfer e i) w
  | CCancelTransfer i => cancelTransfer e i w
  | CTokenApprove t s a => on_token t (approve (msg_sender e) s a) w
  | CTokenTransfer t to a => on_token t (transfer (msg_sender e) to a) w
  | CTokenTransferFrom t from to a => on_token t (transferFrom (msg_sender e) from to a) w
  end.

Definition step (w : World) (tx : Env * Call) : World :=
  match call tx.1 tx.2 w with
  | Ok w' => w'
  | Revert _ => w
  end.

Definition run (w : World) (txs : list (Env * Call)) : World :=
  foldl step w txs.

End Remittance.

(** ** AIRiskOracle *)
Module RiskOracle.

Inductive RiskTier : Type := LOW | MEDIUM | HIGH.

#[global] Instance RiskTier_eq_dec : EqDecision RiskTier.
Proof. solve_decision. Defined.

(** [uint8(tier)] and [RiskTier(n)]; the conversion from a number aborts
    outside the enumeration. *)
Definition uint8_of_tier (t : RiskTier) : N :=
  match t with LOW => 0 | MEDIUM => 1 | HIGH => 2 end.
Definition tier_of_uint8 (n : N) : result RiskTier :=
  match n with
  | 0 => Ok LOW
  | 1 => Ok MEDIUM
  | 2 => Ok HIGH
  | _ => Revert "Panic(0x21)"
  end.

Inductive Event : Type :=
| RiskTierUpdated (user : address) (riskTier : RiskTier)
| AIUpdaterChanged (newUpdater : address)
| CallerAuthorized (caller : address)
| CallerRevoked (caller : address)
| OwnershipTransferred (previousOwner newOwner : address).

Record Oracle : Type := mkOracle {
  owner : address;
  userRiskTiers : gmap address RiskTier;
  authorizedCallers : gset address;
  aiOracleUpdater : address;
  events : list Event
}.

(** [userRiskTiers[_user]]: an untouched slot reads as the first member of
    the enumeration. *)
Definition userRiskTiers_at (o : Oracle) (_user : address) : RiskTier :=
  default LOW (userRiskTiers o !! _user).

Definition emit (ev : Event) (o : Oracle) : Oracle :=
  mkOracle (owner o) (userRiskTiers o) (authorizedCallers o) (aiOracleUpdater o) (events o ++ [ev]).

Definition constructor (deployer _aiOracleUpdater : address) : result Oracle :=
  require (negb (_aiOracleUpdater =? 0)) "Invalid oracle updater address";;
  Ok (mkOracle deployer ∅ ∅ _aiOracleUpdater [OwnershipTransferred 0 deployer]).

Definition onlyOwner (e : Env) (o : Oracle) : result unit :=
  require (owner o =? msg_sender e) "Ownable: caller is not the owner".

Definition onlyAuthorized (e : Env) (o : Oracle) : result unit :=
  require (bool_decide (msg_sender e ∈ authorizedCallers o) || (msg_sender e =? owner o)) "Not authorized".

Definition onlyOracleUpdater (e : Env) (o : Oracle) : result unit :=
  require (msg_sender e =? aiOracleUpdater o) "Not oracle updater".

Definition setAIOracleUpdater (e : Env) (_newUpdater : address) (o : Oracle) : result Oracle :=
  onlyOwner e o;;
  require (negb (_newUpdater =? 0)) "Invalid oracle updater address";;
  Ok (emit (AIUpdaterChanged _newUpdater)
        (mkOracle (owner o) (userRiskTiers o) (authorizedCallers o) _newUpdater (events o))).

Definition authorizeCaller (e : Env) (_caller : address) (o : Oracle) : result Oracle :=
  onlyOwner e o;;
  require (negb (_caller =? 0)) "Invalid caller address";;
  require (negb (bool_decide (_caller ∈ authorizedCallers o))) "Already authorized";;
  Ok (emit (CallerAuthorized _caller)
        (mkOracle (owner o) (userRiskTiers o) ({[_caller]} ∪ authorizedCallers o)
           (aiOracleUpdater o) (events o))).

Definition revokeCaller (e : Env) (_caller : address) (o : Oracle) : result Oracle :=
  onlyOwner e o;;
  require (bool_decide (_caller ∈ authorizedCallers o)) "Not authorized";;
  Ok (emit (CallerRevoked _caller)
        (mkOracle (owner o) (userRiskTiers o) (authorizedCallers o ∖ {[_caller]})
           (aiOracleUpdater o) (events o))).

Definition store_tier (_user : address) (_riskTier : RiskTier) (o : Oracle) : Oracle :=
  emit (RiskTierUpdated _user _riskTier)
    (mkOracle (owner o) (<[_user := _riskTier]> (userRiskTiers o)) (authorizedCallers o)
       (aiOracleUpdater o) (events o)).

Definition updateRiskTier (e : Env) (_user : address) (_riskTier : RiskTier) (o : Oracle) : result Oracle :=
  onlyOracleUpdater e o;;
  require (negb (_user =? 0)) "Invalid user address";;
  Ok (store_tier _user _riskTier o).

(** The loop of [batchUpdateRiskTiers] over the two arrays, index by index. *)
Fixpoint batch_loop (_users : list address) (_riskTiers : list RiskTier) (o : Oracle) : result Oracle :=
  match _users, _riskTiers with
  | u :: us, t :: ts =>
      require (negb (u =? 0)) "Invalid user address";;
      batch_loop us ts (store_tier u t o)
  | _, _ => Ok o
  end.

Definition batchUpdateRiskTiers (e : Env) (_users : list address) (_riskTiers : list RiskTier) (o : Oracle) : result Oracle :=
  onlyOracleUpdater e o;;
  require (length _users =? length _riskTiers)%nat "Arrays length mismatch";;
  batch_loop _users _riskTiers o.

Definition getRiskTier (e : Env) (_user : address) (o : Oracle) : result N :=
  onlyAuthorized e o;;
  if (_user =? 0) || bool_decide (userRiskTiers_at o _user = LOW)
  then Ok (uint8_of_tier MEDIUM)
  else Ok (uint8_of_tier (userRiskTiers_at o _user)).

Definition checkRiskTierPublic (_user : address) (o : Oracle) : string :=
  if (_user =? 0) || bool_decide (userRiskTiers_at o _user = LOW)
  then "MEDIUM"
  else
    let tier := userRiskTiers_at o _user in
    if bool_decide (tier = LOW) then "LOW"
    else if bool_decide (tier = MEDIUM) then "MEDIUM"
    else if bool_decide (tier = HIGH) then "HIGH"
    else "UNKNOWN".

End RiskOracle.

(** ** AIFiVoiceInterface *)
Module VoiceInterface.

Abbreviation bytes32 := N (only parsing).
Abbreviation bytes4 := N (only parsing).

Record ActionInfo : Type := mkActionInfo {
  targetContract : address;
  functionSelector : bytes4;
  description : string;
  active : bool
}.

Definition zeroAction : ActionInfo := mkActionInfo 0 0 EmptyString false.

Inductive Event : Type :=
| ActionRegistered (commandHash : bytes32) (targetContract : address) (functionSelector : bytes4)
| ActionUpdated (commandHash : bytes32) (targetContract : address) (functionSelector : bytes4)
| ActionDeactivated (commandHash : bytes32)
| LanguageAdded (language : string)
| LanguageRemoved (language : string)
| ProcessorAuthorized (processor : address)
| ProcessorRevoked (processor : address)
| OwnershipTransferred (previousOwner newOwner : address).

Record Registry : Type := mkRegistry {
  owner : address;
  actions : gmap bytes32 ActionInfo;
  supportedLanguages : gset string;
  authorizedProcessors : gset address;
  events : list Event
}.

Definition actions_at (r : Registry) (_commandHash : bytes32) : ActionInfo :=
  default zeroAction (actions r !! _commandHash).

Definition set_actions (v : gmap bytes32 ActionInfo) (r : Registry) : Registry :=
  mkRegistry (owner r) v (supportedLanguages r) (authorizedProcessors r) (events r).
Definition set_supportedLanguages (v : gset string) (r : Registry) : Registry :=
  mkRegistry (owner r) (actions r) v (authorizedProcessors r) (events r).
Definition set_authorizedProcessors (v : gset address) (r : Registry) : Registry :=
  mkRegistry (owner r) (actions r) (supportedLanguages r) v (events r).
Definition emit (ev : Event) (r : Registry) : Registry :=
  mkRegistry (owner r) (actions r) (supportedLanguages r) (authorizedProcessors r) (events r ++ [ev]).

Definition constructor (deployer : address) : Registry :=
  mkRegistry deployer ∅ {[ "en"; "es"; "pt" ]} ∅ [OwnershipTransferred 0 deployer].

Definition onlyOwner (e : Env) (r : Registry) : result unit :=
  require (owner r =? msg_sender e) "Ownable: caller is not the owner".

Definition onlyAuthorized (e : Env) (r : Registry) : result unit :=
  require (bool_decide (msg_sender e ∈ authorizedProcessors r) || (msg_sender e =? owner r)) "Not authorized".

Definition registerAction (e : Env) (_commandHash : bytes32) (_targetContract : address)
    (_functionSelector : bytes4) (_description : string) (r : Registry) : result Registry :=
  onlyOwner e r;;
  require (negb (_commandHash =? 0)) "Invalid command hash";;
  require (negb (_targetContract =? 0)) "Invalid target contract";;
  require (negb (_functionSelector =? 0)) "Invalid function selector";;
  require (0 <? String.length _description)%nat "Invalid description";;
  require (negb (active (actions_at r _commandHash))) "Command already registered";;
  Ok (emit (ActionRegistered _commandHash _targetContract _functionSelector)
        (set_actions (<[_commandHash := mkActionInfo _targetContract _functionSelector _description true]>
                        (actions r)) r)).

Definition updateAction (e : Env) (_commandHash : bytes32) (_targetContract : address)
    (_functionSelector : bytes4) (_description : string) (r : Registry) : result Registry :=
  onlyOwner e r;;
  require (active (actions_at r _commandHash)) "Command not registered";;
  require (negb (_targetContract =? 0)) "Invalid target contract";;
  require (negb (_functionSelector =? 0)) "Invalid function selector";;
  require (0 <? String.length _description)%nat "Invalid description";;
  Ok (emit (ActionUpdated _commandHash _targetContract _functionSelector)
        (set_actions (<[_commandHash := mkActionInfo _targetContract _functionSelector _description
                                          (active (actions_at r _commandHash))]>
                        (actions r)) r)).

Definition deactivateAction (e : Env) (_commandHash : bytes32) (r : Registry) : result Registry :=
  onlyOwner e r;;
  let a := actions_at r _commandHash in
  require (active a) "Command not registered or already deactivated";;
  Ok (emit (ActionDeactivated _commandHash)
        (set_actions (<[_commandHash := mkActionInfo (targetContract a) (functionSelector a) (description a) false]>
                        (actions r)) r)).

Definition addLanguage (e : Env) (_language : string) (r : Registry) : result Registry :=
  onlyOwner e r;;
  require (0 <? String.length _language)%nat "Invalid language code";;
  require (negb (bool_decide (_language ∈ supportedLanguages r))) "Language already supported";;
  Ok (emit (LanguageAdded _language) (set_supportedLanguages ({[_language]} ∪ supportedLanguages r) r)).

Definition removeLanguage (e : Env) (_language : string) (r : Registry) : result Registry :=
  onlyOwner e r;;
  require (bool_decide (_language ∈ supportedLanguages r)) "Language not supported";;
  Ok (emit (LanguageRemoved _language) (set_supportedLanguages (supportedLanguages r ∖ {[_language]}) r)).

Definition authorizeProcessor (e : Env) (_processor : address) (r : Registry) : result Registry :=
  onlyOwner e r;;
  require (negb (_processor =? 0)) "Invalid processor address";;
  require (negb (bool_decide (_processor ∈ authorizedProcessors r))) "Already authorized";;
  Ok (emit (ProcessorAuthorized _processor)
        (set_authorizedProcessors ({[_processor]} ∪ authorizedProcessors r) r)).

Definition revokeProcessor (e : Env) (_processor : address) (r : Registry) : result Registry :=
  onlyOwner e r;;
  require (bool_decide (_processor ∈ authorizedProcessors r)) "Not authorized";;
  Ok (emit (ProcessorRevoked _processor)
        (set_authorizedProcessors (authorizedProcessors r ∖ {[_processor]}) r)).

Definition getAction (r : Registry) (_commandHash : bytes32) : ActionInfo :=
  actions_at r _commandHash.

Definition processCommand (e : Env) (_commandHash : bytes32) (r : Registry) : result (address * bytes4) :=
  onlyAuthorized e r;;
  let actionInfo := actions_at r _commandHash in
  require (active actionInfo) "Command not registered or inactive";;
  Ok (targetContract actionInfo, functionSelector actionInfo).

(** [abi.encodePacked(_language, ":", _command)]: the bytes of the three
    strings one after the other, without length prefixes. *)
Definition encodePacked (_language _command : string) : list N :=
  Keccak.bytes_of_string _language ++ Keccak.bytes_of_string ":" ++ Keccak.bytes_of_string _command.

Definition generateCommandHash (_language _command : string) : bytes32 :=
  Keccak.keccak256 (encodePacked _language _command).

End VoiceInterface.

(** * Observations used in the statements *)

(** The balance of [who] once [amount] has moved from [from] to [to]. *)
Definition moved (from to : address) (amount : uint256) (before : address → uint256)
    (who : address) : uint256 :=
  if decide (from = to) then before who
  else if decide (who = from) then before who - amount
  else if decide (who = to) then before who + amount
  else before who.

(** Sum of a function of the events in a log. *)
Definition tally {E : Type} (f : E → N) (evs : list E) : N :=
  foldr (λ ev acc, f ev + acc) 0 evs.

Module LendingPoolObs.
Import Token LendingPool.

(** Sum over all accounts of the deposit balance held in [token]. *)
Definition sum_for (token : address) (m : gmap (address * address) uint256) : N :=
  map_sum (λ k v, if bool_decide (k.2 = token) then v else 0) m.
Definition sumDeposits (p : Pool) (token : address) : N := sum_for token (userDeposits p).

(** Principal lent out in [token], read off the [Borrow] events. *)
Definition borrowed_of (token : address) (ev : Event) : N :=
  match ev with
  | Borrow _ t a _ => if bool_decide (t = token) then a else 0
  | _ => 0
  end.
Definition borrowed (p : Pool) (token : address) : N := tally (borrowed_of token) (events p).

(** Principal plus interest paid back in [token], read off the [Repay] events. *)
Definition repaid_of (token : address) (ev : Event) : N :=
  match ev with
  | Repay _ t a i => if bool_decide (t = token) then a + i else 0
  | _ => 0
  end.
Definition repaid (p : Pool) (token : address) : N := tally (repaid_of token) (events p).

(** Number of loans opened and closed by [user] in [token]. *)
Definition opened_of (user token : address) (ev : Event) : N :=
  match ev with
  | Borrow u t _ _ => if bool_decide (u = user ∧ t = token) then 1 else 0
  | _ => 0
  end.
Definition closed_of (user token : address) (ev : Event) : N :=
  match ev with
  | Repay u t _ _ => if bool_decide (u = user ∧ t = token) then 1 else 0
  | _ => 0
  end.
Definition opened (p : Pool) (user token : address) : N := tally (opened_of user token) (events p).
Definition closed (p : Pool) (user token : address) : N := tally (closed_of user token) (events p).

Definition is_loan_call (c : Call) : bool :=
  match c with
  | CBorrow _ _ | CRepay _ => true
  | _ => false
  end.

(** The accounting identity that ties the liquidity counter to the balances. *)
Definition accounted (p : Pool) (token : address) : Prop :=
  totalDeposits_at p token + borrowed p token = sumDeposits p token + repaid p token.

(** Whether [user] has a loan outstanding in [token]. *)
Definition loan_active (p : Pool) (user token : address) : bool :=
  active (userLoans_at p user token).

(** The loan flag of [(user, token)] against the loans opened and closed in
    the log. *)
Definition single_loan (p : Pool) (user token : address) : Prop :=
  opened p user token = closed p user token + (if loan_active p user token then 1 else 0).

(** The reason [borrow] gives when it is called with a loan outstanding. *)
Definition borrow_refusal (p : Pool) (_token : address) (_amount : uint256) : string :=
  if negb (bool_decide (_token ∈ supportedTokens p)) then "Token not supported"
  else if negb (0 <? _amount) then "Amount must be greater than 0"
  else if negb (_amount <=? totalDeposits_at p _token) then "Insufficient liquidity"
  else "Existing loan active".

(** *** Scenario A of the specification

    Asset [X], account [A], the pool at [POOL] owned by [ADMIN].  [A]
    starts with [funds] tokens and has approved the pool. *)
Definition X : address := 100.
Definition A : address := 7.
Definition POOL : address := 50.
Definition ADMIN : address := 1.
Definition YEAR : uint256 := 31536000.

Definition scenarioA_start (funds : uint256) : World :=
  mkWorld (constructor POOL ADMIN 9)
    {[ X := mkERC20 {[ A := funds ]} {[ (A, POOL) := 10000 ]} ]}.

Definition scenarioA_setup : list (Env * Call) :=
  [ (mkEnv ADMIN 5, CAddSupportedToken X);
    (mkEnv A 10, CDeposit X 1000);
    (mkEnv A 20, CBorrow X 400) ].

Definition scenarioA_deposited (funds : uint256) : World :=
  run (scenarioA_start funds) (take 2 scenarioA_setup).

Definition scenarioA_borrowed (funds : uint256) : World :=
  run (scenarioA_start funds) scenarioA_setup.

Definition scenarioA_repaid (funds : uint256) : World :=
  run (scenarioA_borrowed funds) [ (mkEnv A (20 + YEAR), CRepay X) ].

End LendingPoolObs.

Module RemittanceObs.
Import Token Remittance.

(** What transfer [tr] keeps in escrow of [token]: its principal while it
    is pending. *)
Definition pending_of (token : address) (tr : Transfer) : N :=
  if bool_decide (status tr = PENDING ∧ tokenAddress tr = token) then amount tr else 0.

(** Principal of all pending transfers in [token]. *)
Definition escrowed (l : Ledger) (token : address) : N :=
  map_sum (λ _ tr, pending_of token tr) (transfers l).

Definition terminal (st : TransferStatus) : bool :=
  match st with
  | PENDING => false
  | COMPLETED | CANCELLED => true
  end.

(** Transactions come from accounts other than the zero address and the
    ledger itself, which has no code path calling out on its own. *)
Definition external (this : address) (tx : Env * Call) : Prop :=
  msg_sender tx.1 ≠ 0 ∧ msg_sender tx.1 ≠ this.

(** At deployment the ledger has approved nobody on any token. *)
Definition clean_start (this : address) (tw : Tokens) : Prop :=
  ∀ k tk spender, tw !! k = Some tk → allowance tk this spender = 0.

(** Worlds the deployed ledger can be in. *)
Definition reachable (w : World) : Prop :=
  ∃ this deployer _treasury l0 tw txs,
    this ≠ 0 ∧ constructor this deployer _treasury = Ok l0 ∧
    clean_start this tw ∧ Forall (external this) txs ∧
    w = run (mkWorld l0 tw) txs.

(** The invariant behind the lifecycle properties. *)
Definition sound (this : address) (w : World) : Prop :=
  self (ledger w) = this
  ∧ 1 ≤ transferCounter (ledger w)
  ∧ (∀ i tr, transfers (ledger w) !! i = Some tr →
       i < transferCounter (ledger w) ∧ id tr = i)
  ∧ (∀ i tr, transfers (ledger w) !! i = Some tr → status tr = PENDING →
       sender tr ≠ 0 ∧ sender tr ≠ this ∧ is_Some (tokens w !! tokenAddress tr))
  ∧ (∀ k, escrowed (ledger w) k ≤ holding (tokens w) k this)
  ∧ (∀ k tk spender, tokens w !! k = Some tk → allowance tk this spender = 0).

(** Every identifier handed out so far has its record. *)
Definition dense (l : Ledger) : Prop :=
  ∀ i, 1 ≤ i → i < transferCounter l → is_Some (transfers l !! i).

(** *** Scenario B of the specification

    The ledger at [REM] owned by [ADMIN], fees going to [TREASURY]; sender
    [S] holds 5000 of asset [X] and has approved the ledger. *)
Definition X : address := 100.
Definition S : address := 7.
Definition REM : address := 60.
Definition ADMIN : address := 1.
Definition TREASURY : address := 2.

Definition scenarioB_ledger : Ledger :=
  match constructor REM ADMIN TREASURY with
  | Ok l => l
  | Revert _ => mkLedger REM ADMIN ∅ ∅ 0 0 0 0 ∅ ∅ TREASURY []
  end.

Definition scenarioB_start : World :=
  mkWorld scenarioB_ledger {[ X := mkERC20 {[ S := 5000 ]} {[ (S, REM) := 5000 ]} ]}.

Definition scenarioB_setup : list (Env * Call) :=
  [ (mkEnv ADMIN 5, CAddSupportedToken X);
    (mkEnv ADMIN 6, CUpdateCorridorFee "US" "MX" 80);
    (mkEnv ADMIN 7, CUpdateTransferLimits 10 100000) ].

Definition scenarioB_ready : World := run scenarioB_start scenarioB_setup.

Definition scenarioB_sent : World :=
  run scenarioB_ready [ (mkEnv S 20, CInitiateTransfer X 1000 "+52-555-0100" "US" "MX") ].

Definition scenarioB_cancelled : World :=
  run scenarioB_sent [ (mkEnv S 30, CCancelTransfer 1) ].

Definition scenarioB_completed : World :=
  run scenarioB_sent [ (mkEnv ADMIN 30, CCompleteTransfer 1) ].

(** The ready ledger once the owner has set the (US, MX) rate to zero. *)
Definition scenarioB_zeroed : Ledger :=
  match updateCorridorFee (mkEnv ADMIN 50) "US" "MX" 0 (ledger scenarioB_ready) with
  | Ok l => l
  | Revert _ => ledger scenarioB_ready
  end.

End RemittanceObs.

Module RiskOracleObs.
Import RiskOracle.

(** A deployed oracle: owner [OWNER], updater [UPDATER], one authorized
    caller [LENDER]; [BOB] is an account with an assessment. *)
Definition OWNER : address := 1.
Definition UPDATER : address := 3.
Definition LENDER : address := 50.
Definition BOB : address := 8.
Definition STRANGER : address := 66.

Definition deployed : Oracle :=
  match o ← constructor OWNER UPDATER; authorizeCaller (mkEnv OWNER 1) LENDER o with
  | Ok o => o
  | Revert _ => mkOracle OWNER ∅ ∅ UPDATER []
  end.

(** The oracle after the updater has assessed [BOB] as [tier]. *)
Definition assessed (tier : RiskTier) : Oracle :=
  match updateRiskTier (mkEnv UPDATER 10) BOB tier deployed with
  | Ok o => o
  | Revert _ => deployed
  end.

End RiskOracleObs.

Module VoiceInterfaceObs.
Import VoiceInterface.

(** The registry a transaction leaves behind: the new one on success, the
    old one when the call reverts. *)
Definition commit (r : Registry) (res : result Registry) : Registry :=
  match res with
  | Ok r' => r'
  | Revert _ => r
  end.

Definition OWNER : address := 1.
Definition POOL : address := 50.
Definition REM : address := 60.

Definition sendHash : bytes32 := generateCommandHash "en" "send money to {recipient}".

(** The registry after the owner registered the English send command. *)
Definition registered : Registry :=
  commit (constructor OWNER)
    (registerAction (mkEnv OWNER 5) sendHash REM 0x12345678 "Send money to a recipient"
       (constructor OWNER)).

End VoiceInterfaceObs.

(** * Proofs *)

Section result_facts.
Context {A B : Type}.

Lemma bind_Ok_inv (m : result A) (f : A → result B) (b : B) :
  m ≫= f = Ok b → ∃ a, m = Ok a ∧ f a = Ok b.
Proof. destruct m as [a|r]; [eauto | discriminate]. Qed.

End result_facts.

Lemma require_Ok_inv (c : bool) (r : string) (u : unit) : require c r = Ok u → c = true.
Proof. by destruct c. Qed.

Lemma checked_add_Ok_inv (a b c : N) : checked_add a b = Ok c → c = a + b ∧ a + b ≤ MAX_UINT256.
Proof.
  unfold checked_add. destruct (a + b <=? MAX_UINT256) eqn:E; [|discriminate].
  apply N.leb_le in E. by intros [= <-].
Qed.

Lemma checked_sub_Ok_inv (a b c : N) : checked_sub a b = Ok c → c = a - b ∧ b ≤ a.
Proof.
  unfold checked_sub. destruct (b <=? a) eqn:E; [|discriminate].
  apply N.leb_le in E. by intros [= <-].
Qed.

Lemma MAX_UINT256_eq :
  MAX_UINT256 = 115792089237316195423570985008687907853269984665640564039457584007913129639935.
Proof. vm_compute. reflexivity. Qed.

Lemma checked_mul_Ok (a b : N) : a * b ≤ MAX_UINT256 → checked_mul a b = Ok (a * b).
Proof. intros Hle. unfold checked_mul. by apply N.leb_le in Hle as ->. Qed.

Lemma checked_add_Ok (a b : N) : a + b ≤ MAX_UINT256 → checked_add a b = Ok (a + b).
Proof. intros Hle. unfold checked_add. by apply N.leb_le in Hle as ->. Qed.

Lemma checked_div_Ok (a b : N) : b ≠ 0 → checked_div a b = Ok (a / b).
Proof. intros Hb. unfold checked_div. by apply N.eqb_neq in Hb as ->. Qed.

(** Peel every successful monadic step found in the hypotheses. *)
Ltac peel :=
  repeat match goal with
  | H : mbind _ _ = Ok _ |- _ =>
      let a := fresh "v" in
      let E := fresh "E" in
      apply bind_Ok_inv in H as (a & E & H)
  | H : require _ _ = Ok _ |- _ => apply require_Ok_inv in H
  | H : checked_add _ _ = Ok ?c |- _ => apply checked_add_Ok_inv in H as [? H]; subst c
  | H : checked_sub _ _ = Ok ?c |- _ => apply checked_sub_Ok_inv in H as [? H]; subst c
  | H : Ok _ = Ok _ |- _ => injection H as H
  end.

Section tally_facts.
Context {E : Type} (f : E → N).

Lemma tally_snoc (evs : list E) (ev : E) : tally f (evs ++ [ev]) = tally f evs + f ev.
Proof. unfold tally. induction evs as [|x evs IH]; simpl; lia. Qed.

End tally_facts.

Section map_sum_facts.
Context `{Countable K} {V : Type}.
Implicit Types (f : K → V → N) (m : gmap K V).

Lemma map_sum_empty f : map_sum f ∅ = 0.
Proof. unfold map_sum. by rewrite map_fold_empty. Qed.

Lemma map_sum_insert_None f m k v :
  m !! k = None → map_sum f (<[k:=v]> m) = f k v + map_sum f m.
Proof.
  intros Hk. unfold map_sum.
  rewrite map_fold_insert_L; [done| |done].
  intros; lia.
Qed.

Lemma map_sum_delete f m k v :
  m !! k = Some v → map_sum f m = f k v + map_sum f (delete k m).
Proof.
  intros Hk. unfold map_sum.
  rewrite (map_fold_delete_L _ _ k v m); [done| |done].
  intros; lia.
Qed.

Lemma map_sum_insert_Some f m k old v :
  m !! k = Some old → map_sum f (<[k:=v]> m) + f k old = map_sum f m + f k v.
Proof.
  intros Hk. rewrite (map_sum_delete f m k old Hk).
  rewrite <- (insert_delete_eq m k v).
  rewrite map_sum_insert_None by apply lookup_delete_eq. lia.
Qed.

End map_sum_facts.

Section token_facts.
Import Token.

Lemma _transfer_Ok_inv from to amount tk tk' :
  _transfer from to amount tk = Ok tk' →
  from ≠ 0 ∧ to ≠ 0 ∧ amount ≤ balance tk from ∧ allowances tk' = allowances tk ∧
  ∀ who, balance tk' who = moved from to amount (balance tk) who.
Proof.
  unfold _transfer. intros Hc. peel.
  apply negb_true_iff, N.eqb_neq in E. apply negb_true_iff, N.eqb_neq in E0.
  apply N.leb_le in E1. subst tk'. simpl.
  split_and!; try done.
  intros who. unfold moved, balance in *. simpl.
  destruct (decide (from = to)) as [->|Hft].
  - rewrite lookup_insert_eq. simpl.
    destruct (decide (who = to)) as [->|Hw].
    + rewrite lookup_insert_eq. simpl. lia.
    + by rewrite !lookup_insert_ne.
  - rewrite (lookup_insert_ne _ from to) by done.
    destruct (decide (who = from)) as [->|Hwf].
    + rewrite lookup_insert_ne, lookup_insert_eq by done. done.
    + destruct (decide (who = to)) as [->|Hwt].
      * by rewrite lookup_insert_eq.
      * by rewrite !lookup_insert_ne.
Qed.

Lemma _transfer_Ok from to amount tk :
  from ≠ 0 → to ≠ 0 → amount ≤ balance tk from →
  ∃ tk', _transfer from to amount tk = Ok tk'.
Proof.
  intros Hf Ht Hle. unfold _transfer.
  apply N.eqb_neq in Hf as ->. apply N.eqb_neq in Ht as ->.
  apply N.leb_le in Hle as ->. simpl. eauto.
Qed.

Lemma _spendAllowance_Ok_inv holder spender amount tk tk' :
  _spendAllowance holder spender amount tk = Ok tk' →
  balances tk' = balances tk ∧
  (allowance tk holder spender = MAX_UINT256 ∨ amount ≤ allowance tk holder spender) ∧
  ∀ h s, (h, s) ≠ (holder, spender) → allowance tk' h s = allowance tk h s.
Proof.
  unfold _spendAllowance.
  destruct (allowance tk holder spender =? MAX_UINT256) eqn:Hmax.
  - intros [= <-]. apply N.eqb_eq in Hmax. auto.
  - intros Hc. peel. subst tk'. apply N.leb_le in E. simpl.
    split_and!; [done|by right|].
    intros h s Hne. unfold allowance. simpl. by rewrite lookup_insert_ne.
Qed.

Lemma _spendAllowance_le holder spender amount tk tk' h s :
  _spendAllowance holder spender amount tk = Ok tk' →
  allowance tk' h s ≤ allowance tk h s.
Proof.
  unfold _spendAllowance.
  destruct (allowance tk holder spender =? MAX_UINT256).
  - by intros [= <-].
  - intros Hc. peel. subst tk'. unfold allowance. simpl.
    destruct (decide ((holder, spender) = (h, s))) as [<-|Hne].
    + rewrite lookup_insert_eq. simpl. lia.
    + by rewrite lookup_insert_ne.
Qed.

Lemma _spendAllowance_Ok holder spender amount tk :
  amount ≤ allowance tk holder spender →
  ∃ tk', _spendAllowance holder spender amount tk = Ok tk'.
Proof.
  intros Hle. unfold _spendAllowance.
  destruct (allowance tk holder spender =? MAX_UINT256); [eauto|].
  apply N.leb_le in Hle as ->. simpl. eauto.
Qed.

Lemma holding_insert tw token tk k who :
  holding (<[token := tk]> tw) k who
  = if decide (k = token) then balance tk who else holding tw k who.
Proof.
  unfold holding. destruct (decide (k = token)) as [->|Hne].
  - by rewrite lookup_insert_eq.
  - by rewrite lookup_insert_ne.
Qed.

(** Effect of [safeTransfer] on every holding of every token. *)
Lemma safeTransfer_Ok_inv caller token to amount tw tw' :
  safeTransfer caller token to amount tw = Ok tw' →
  caller ≠ 0 ∧ to ≠ 0 ∧ amount ≤ holding tw token caller ∧
  (∃ tk tk', tw !! token = Some tk ∧ tw' = <[token := tk']> tw ∧
             allowances tk' = allowances tk) ∧
  ∀ k who, holding tw' k who
    = if decide (k = token) then moved caller to amount (holding tw token) who
      else holding tw k who.
Proof.
  unfold safeTransfer, transfer.
  destruct (tw !! token) as [tk|] eqn:Htk; [|discriminate].
  intros Hc. peel. subst tw'.
  apply _transfer_Ok_inv in E as (Hf & Ht & Hle & Hal & Hbal).
  split_and!; try done.
  - unfold holding. by rewrite Htk.
  - eauto.
  - intros k who. rewrite holding_insert. case_decide; [|done].
    rewrite Hbal. unfold moved, holding. rewrite Htk. done.
Qed.

Lemma safeTransfer_Ok caller token to amount tw :
  is_Some (tw !! token) → caller ≠ 0 → to ≠ 0 → amount ≤ holding tw token caller →
  ∃ tw', safeTransfer caller token to amount tw = Ok tw'.
Proof.
  intros [tk Htk] Hc Ht Hle. unfold safeTransfer, transfer, holding in *.
  rewrite Htk in *.
  destruct (_transfer_Ok caller to amount tk) as [tk' ->]; eauto.
Qed.

(** Effect of [safeTransferFrom] on every holding of every token. *)
Lemma safeTransferFrom_Ok_inv caller token from to amount tw tw' :
  safeTransferFrom caller token from to amount tw = Ok tw' →
  from ≠ 0 ∧ to ≠ 0 ∧ amount ≤ holding tw token from ∧
  (∃ tk tk', tw !! token = Some tk ∧ tw' = <[token := tk']> tw ∧
             ∀ h s, (h, s) ≠ (from, caller) → allowance tk' h s = allowance tk h s) ∧
  ∀ k who, holding tw' k who
    = if decide (k = token) then moved from to amount (holding tw token) who
      else holding tw k who.
Proof.
  unfold safeTransferFrom, transferFrom.
  destruct (tw !! token) as [tk|] eqn:Htk; [|discriminate].
  intros Hc. peel. subst tw'.
  apply _spendAllowance_Ok_inv in E0 as (Hb & _ & Hal).
  apply _transfer_Ok_inv in E as (Hf & Ht & Hle & Hal' & Hbal).
  assert (∀ who, balance v0 who = balance tk who) as Hsame
    by (intros who; unfold balance; by rewrite Hb).
  split_and!; try done.
  - unfold holding. rewrite Htk, <- Hsame. done.
  - exists tk, v. split_and!; try done.
    intros h s Hne. unfold allowance in *. rewrite Hal'. by apply Hal.
  - intros k who. rewrite holding_insert. case_decide; [|done].
    rewrite Hbal. unfold moved, holding. rewrite Htk.
    repeat case_decide; by rewrite ?Hsame.
Qed.

Lemma safeTransferFrom_Ok caller token from to amount tw tk :
  tw !! token = Some tk → from ≠ 0 → to ≠ 0 →
  amount ≤ balance tk from → amount ≤ allowance tk from caller →
  ∃ tw', safeTransferFrom caller token from to amount tw = Ok tw'.
Proof.
  intros Htk Hf Ht Hle Hal. unfold safeTransferFrom, transferFrom. rewrite Htk.
  destruct (_spendAllowance_Ok from caller amount tk Hal) as [tk1 H1].
  rewrite H1. cbn [mbind result_bind].
  apply _spendAllowance_Ok_inv in H1 as (Hb & _).
  destruct (_transfer_Ok from to amount tk1) as [tk2 ->]; try done.
  - unfold balance in *. by rewrite Hb.
  - cbn [mbind result_bind]. eauto.
Qed.

End token_facts.

Section LendingPoolProofs.
Import Token LendingPool LendingPoolObs.

Lemma sum_for_insert (m : gmap (address * address) uint256) (u t t' : address) (v : N) :
  sum_for t' (<[(u, t) := v]> m)
    + (if bool_decide (t = t') then default 0 (m !! (u, t)) else 0)
  = sum_for t' m + (if bool_decide (t = t') then v else 0).
Proof.
  unfold sum_for.
  destruct (m !! (u, t)) as [old|] eqn:Hk; simpl.
  - pose proof (map_sum_insert_Some
      (λ (k : N * N) (v : N), if bool_decide (k.2 = t') then v else 0) _ _ old v Hk) as Hs.
    simpl in Hs. lia.
  - rewrite map_sum_insert_None by done. simpl. case_bool_decide; lia.
Qed.

Ltac unfold_obs :=
  unfold accounted, loan_active, totalDeposits_at, userDeposits_at, userLoans_at,
    borrowed, repaid, opened, closed, sumDeposits in *;
  simpl in *; rewrite ?tally_snoc; simpl.

Ltac close_accounting :=
  repeat match goal with
  | |- context [sum_for ?tok (<[(?u, ?t) := ?v]> ?m)] =>
      let Hs := fresh "Hs" in
      pose proof (sum_for_insert m u t tok v) as Hs;
      generalize dependent (sum_for tok (<[(u, t) := v]> m)); intros
  end;
  rewrite ?lookup_insert in *;
  repeat case_decide; repeat case_bool_decide; simplify_eq; simpl in *; lia.

Lemma accounted_deposit e t a w w' tok :
  deposit e t a w = Ok w' → accounted (pool w) tok → accounted (pool w') tok.
Proof.
  unfold deposit. intros Hc. peel. subst w'.
  unfold_obs. intros Hinv. close_accounting.
Qed.

Lemma accounted_withdraw e t a w w' tok :
  withdraw e t a w = Ok w' → accounted (pool w) tok → accounted (pool w') tok.
Proof.
  unfold withdraw. intros Hc. peel. subst w'.
  unfold_obs. intros Hinv. close_accounting.
Qed.

Lemma accounted_borrow e t a w w' tok :
  borrow e t a w = Ok w' → accounted (pool w) tok → accounted (pool w') tok.
Proof.
  unfold borrow. intros Hc. peel. subst w'.
  unfold_obs. intros Hinv. close_accounting.
Qed.

Lemma accounted_repay e t w w' tok :
  repay e t w = Ok w' → accounted (pool w) tok → accounted (pool w') tok.
Proof.
  unfold repay. intros Hc. peel. subst w'.
  unfold_obs. intros Hinv. close_accounting.
Qed.

Lemma accounted_call e c w w' tok :
  call e c w = Ok w' → accounted (pool w) tok → accounted (pool w') tok.
Proof.
  destruct c; simpl;
    eauto using accounted_deposit, accounted_withdraw, accounted_borrow, accounted_repay.
  all: try (unfold on_pool, transferOwnership, renounceOwnership, addSupportedToken,
      removeSupportedToken, updateInterestRate, updateRiskOracle;
    unfold onlyOwner; intros Hc; peel; subst; unfold_obs; intros; lia).
  all: unfold on_token;
    match goal with |- context [tokens ?w0 !! ?t] => destruct (tokens w0 !! t) end;
    [|discriminate]; intros Hc; peel; by subst.
Qed.

Lemma accounted_run w txs tok :
  accounted (pool w) tok → accounted (pool (run w txs)) tok.
Proof.
  revert w. induction txs as [|[e c] txs IH]; intros w Hw; [done|].
  simpl. apply IH. unfold step. simpl.
  destruct (call e c w) as [w'|r] eqn:Hc; [|done].
  by eapply accounted_call.
Qed.

Lemma accounted_constructor this deployer oracle tok :
  accounted (constructor this deployer oracle) tok.
Proof. unfold_obs. by rewrite lookup_empty. Qed.

(** Without borrow and repay calls the log holds no loan event. *)
Lemma quiet_call e c w w' tok :
  is_loan_call c = false → call e c w = Ok w' →
  borrowed (pool w) tok = 0 ∧ repaid (pool w) tok = 0 →
  borrowed (pool w') tok = 0 ∧ repaid (pool w') tok = 0.
Proof.
  destruct c; try discriminate; intros _; simpl.
  all: unfold on_pool, on_token, transferOwnership, renounceOwnership, addSupportedToken,
      removeSupportedToken, updateInterestRate, updateRiskOracle, deposit, withdraw, onlyOwner;
    try match goal with |- context [tokens ?w0 !! ?t] => destruct (tokens w0 !! t) end;
    try discriminate;
    intros Hc; peel; subst; unfold_obs; intros; lia.
Qed.

Lemma quiet_run w txs tok :
  Forall (λ tx, is_loan_call tx.2 = false) txs →
  borrowed (pool w) tok = 0 ∧ repaid (pool w) tok = 0 →
  borrowed (pool (run w txs)) tok = 0 ∧ repaid (pool (run w txs)) tok = 0.
Proof.
  revert w. induction txs as [|[e c] txs IH]; intros w Hall Hw; [done|].
  inversion_clear Hall as [|?? Hc Hall']. simpl in *. apply IH; [done|].
  unfold step. simpl. destruct (call e c w) as [w'|r] eqn:Hcall; [|done].
  by eapply quiet_call.
Qed.

Lemma single_loan_call e c w w' u t :
  call e c w = Ok w' → single_loan (pool w) u t → single_loan (pool w') u t.
Proof.
  unfold single_loan.
  destruct c; simpl.
  all: unfold on_pool, on_token, transferOwnership, renounceOwnership, addSupportedToken,
      removeSupportedToken, updateInterestRate, updateRiskOracle, deposit, withdraw,
      borrow, repay, onlyOwner;
    try match goal with |- context [tokens ?w0 !! ?t] => destruct (tokens w0 !! t) end;
    try discriminate;
    intros Hc; peel; subst; unfold_obs; intros; try lia.
  all: destruct (decide ((msg_sender e, _token) = (u, t))) as [[= <- <-]|Hne];
    [ rewrite lookup_insert_eq, bool_decide_eq_true_2 by done; simpl;
      destruct (active _); simpl in *; (discriminate || lia)
    | rewrite lookup_insert_ne, bool_decide_eq_false_2 by (done || (intros [??]; congruence)); lia ].
Qed.

Lemma single_loan_run w txs u t :
  single_loan (pool w) u t → single_loan (pool (run w txs)) u t.
Proof.
  revert w. induction txs as [|[e c] txs IH]; intros w Hw; [done|].
  simpl. apply IH. unfold step. simpl.
  destruct (call e c w) as [w'|r] eqn:Hc; [|done].
  by eapply single_loan_call.
Qed.

Lemma borrow_while_active e t a w :
  loan_active (pool w) (msg_sender e) t = true →
  borrow e t a w = Revert (borrow_refusal (pool w) t a).
Proof.
  unfold loan_active, borrow, borrow_refusal. intros ->.
  destruct (bool_decide _); simpl; [|done].
  destruct (0 <? a); simpl; [|done].
  by destruct (a <=? _).
Qed.

Lemma repay_while_inactive e t w :
  loan_active (pool w) (msg_sender e) t = false →
  repay e t w = Revert "No active loan".
Proof. unfold loan_active, repay. by intros ->. Qed.

Lemma borrow_opens e t a w w' :
  borrow e t a w = Ok w' →
  loan_active (pool w) (msg_sender e) t = false ∧
  loan_active (pool w') (msg_sender e) t = true.
Proof.
  unfold borrow. intros Hc. peel. subst. unfold_obs.
  rewrite lookup_insert_eq. simpl. split; [|done].
  by destruct (active _).
Qed.

Lemma repay_closes e t w w' :
  repay e t w = Ok w' →
  loan_active (pool w) (msg_sender e) t = true ∧
  loan_active (pool w') (msg_sender e) t = false.
Proof.
  unfold repay. intros Hc. peel. subst. unfold_obs.
  by rewrite lookup_insert_eq.
Qed.

(** A call changes the loan flag of [(u, t)] only if it is [u]'s own
    borrow or repay on [t]. *)
Lemma loan_flag_frame e c w w' u t :
  call e c w = Ok w' →
  loan_active (pool w') u t ≠ loan_active (pool w) u t →
  msg_sender e = u ∧ ((∃ a, c = CBorrow t a) ∨ c = CRepay t).
Proof.
  destruct c; simpl.
  all: unfold on_pool, on_token, transferOwnership, renounceOwnership, addSupportedToken,
      removeSupportedToken, updateInterestRate, updateRiskOracle, deposit, withdraw,
      borrow, repay, onlyOwner;
    try match goal with |- context [tokens ?w0 !! ?t] => destruct (tokens w0 !! t) end;
    try discriminate;
    intros Hc; peel; subst; unfold_obs; try done.
  all: destruct (decide ((msg_sender e, _token) = (u, t))) as [[= <- <-]|Hne];
    [ eauto | by rewrite lookup_insert_ne ].
Qed.

(** The interest charged on [400 * u] after one year at 1000 basis points
    stays below [40 * u], whatever the unit [u]. *)
Lemma interest_one_year_short (p : Pool) (u : N) :
  interestRates p MEDIUM = 1000 → 0 < u → u ≤ 10 ^ 50 →
  ∃ i, calculateInterest p (400 * u) YEAR MEDIUM = Ok i ∧ i < 40 * u.
Proof.
  intros Hr Hu Hmax. unfold calculateInterest, YEAR. rewrite Hr.
  assert ((10:N) ^ 50 = 100000000000000000000000000000000000000000000000000) as H50
    by (vm_compute; reflexivity).
  rewrite H50 in Hmax.
  replace (checked_mul 1000 (10 ^ 18)) with (Ok (A:=N) 1000000000000000000000)
    by (vm_compute; reflexivity).
  cbn [mbind result_bind].
  replace (checked_div 1000000000000000000000 31536000) with (Ok (A:=N) 31709791983764)
    by (vm_compute; reflexivity).
  cbn [mbind result_bind].
  replace (checked_div 31709791983764 10000) with (Ok (A:=N) 3170979198)
    by (vm_compute; reflexivity).
  cbn [mbind result_bind].
  rewrite (checked_mul_Ok (400 * u) 3170979198) by (rewrite MAX_UINT256_eq; lia).
  cbn [mbind result_bind].
  rewrite (checked_mul_Ok (400 * u * 3170979198) 31536000) by (rewrite MAX_UINT256_eq; lia).
  cbn [mbind result_bind].
  replace ((10:N) ^ 18) with 1000000000000000000 by (vm_compute; reflexivity).
  rewrite checked_div_Ok by lia.
  eexists; split; [reflexivity|].
  apply N.Div0.div_lt_upper_bound. lia.
Qed.

(** C1, as amended. For every asset and after any sequence of calls from the
    freshly deployed pool, the total-deposits counter plus everything lent
    out equals the sum of the per-account balances plus everything paid
    back (principal and interest); borrow and repay never touch the
    balances. When the sequence holds no borrow and no repay, the sum of the
    balances equals the counter. *)
Theorem deposits_accounting (this deployer oracle : address) (tw : Tokens)
    (txs : list (Env * Call)) (token : address) :
  let w := run (mkWorld (constructor this deployer oracle) tw) txs in
  totalDeposits_at (pool w) token + borrowed (pool w) token
    = sumDeposits (pool w) token + repaid (pool w) token
  ∧ (Forall (λ tx, is_loan_call tx.2 = false) txs →
     sumDeposits (pool w) token = totalDeposits_at (pool w) token)
  ∧ (∀ e t a w1 w2, borrow e t a w1 = Ok w2 → userDeposits (pool w2) = userDeposits (pool w1))
  ∧ (∀ e t w1 w2, repay e t w1 = Ok w2 → userDeposits (pool w2) = userDeposits (pool w1)).
Proof.
  intros w.
  assert (accounted (pool w) token) as Hacc
    by (apply accounted_run, accounted_constructor).
  split_and!; [exact Hacc| | |].
  - intros Hq.
    destruct (quiet_run (mkWorld (constructor this deployer oracle) tw) txs token Hq) as [Hb Hr];
      [by unfold_obs|].
    fold w in Hb, Hr. unfold accounted in Hacc. lia.
  - unfold borrow. intros e t a w1 w2 Hc. peel. by subst w2.
  - unfold repay. intros e t w1 w2 Hc. peel. by subst w2.
Qed.

Lemma deposits_accounting_witness :
  let txs := [ (mkEnv ADMIN 5, CAddSupportedToken X); (mkEnv A 10, CDeposit X 1000);
               (mkEnv A 11, CWithdraw X 300) ] in
  Forall (λ tx, is_loan_call tx.2 = false) txs
  ∧ sumDeposits (pool (run (scenarioA_start 1000) txs)) X
    = totalDeposits_at (pool (run (scenarioA_start 1000) txs)) X
  ∧ borrow (mkEnv A 20) X 400 (scenarioA_deposited 1039) = Ok (scenarioA_borrowed 1039)
  ∧ userDeposits (pool (scenarioA_borrowed 1039)) = userDeposits (pool (scenarioA_deposited 1039))
  ∧ repay (mkEnv A (20 + YEAR)) X (scenarioA_borrowed 1039) = Ok (scenarioA_repaid 1039)
  ∧ userDeposits (pool (scenarioA_repaid 1039)) = userDeposits (pool (scenarioA_borrowed 1039)).
Proof.
  intros txs.
  assert (Forall (λ tx, is_loan_call tx.2 = false) txs) as Hq
    by (repeat constructor).
  assert (borrow (mkEnv A 20) X 400 (scenarioA_deposited 1039) = Ok (scenarioA_borrowed 1039))
    as Hb by (vm_compute; reflexivity).
  assert (repay (mkEnv A (20 + YEAR)) X (scenarioA_borrowed 1039) = Ok (scenarioA_repaid 1039))
    as Hr by (vm_compute; reflexivity).
  destruct (deposits_accounting POOL ADMIN 9 (tokens (scenarioA_start 1000)) txs X)
    as (_ & Hquiet & Hborrow & Hrepay).
  split_and!.
  - exact Hq.
  - exact (Hquiet Hq).
  - exact Hb.
  - exact (Hborrow _ _ _ _ _ Hb).
  - exact Hr.
  - exact (Hrepay _ _ _ _ Hr).
Defined.

(** C1, as stated, fails: after a deposit of 1000 and a borrow of 400 the
    balances still sum to 1000 while the counter reads 600. *)
Lemma conservation_broken_by_borrow :
  sumDeposits (pool (scenarioA_borrowed 1000)) X = 1000 ∧
  totalDeposits_at (pool (scenarioA_borrowed 1000)) X = 600 ∧
  sumDeposits (pool (scenarioA_borrowed 1000)) X
    ≠ totalDeposits_at (pool (scenarioA_borrowed 1000)) X.
Proof. vm_compute. repeat split; discriminate. Qed.

(** C2 (the code departs from the claim). Scenario A run on the code: the
    per-second rate is truncated before it is multiplied out, so one year at
    1000 basis points on 400 charges 39, not 40. An account left with
    exactly 439 repays in full, with 438 the repayment is refused, and the
    counter ends at 1039. *)
Theorem scenario_A_repays_439 :
  calculateInterest (pool (scenarioA_borrowed 1039)) 400 YEAR MEDIUM = Ok 39
  ∧ holding (tokens (scenarioA_borrowed 1039)) X A = 439
  ∧ holding (tokens (scenarioA_repaid 1039)) X A = 0
  ∧ loan_active (pool (scenarioA_repaid 1039)) A X = false
  ∧ totalDeposits_at (pool (scenarioA_repaid 1039)) X = 1039
  ∧ Repay A X 400 39 ∈ events (pool (scenarioA_repaid 1039))
  ∧ call (mkEnv A (20 + YEAR)) (CRepay X) (scenarioA_borrowed 1038)
      = Revert "Insufficient balance for repayment".
Proof.
  split_and!; try (vm_compute; reflexivity).
  vm_compute. set_solver.
Qed.

(** C4. The loan of an (account, asset) pair moves only from no loan to
    active through that account's borrow, and from active to no loan through
    its repay: a borrow with a loan outstanding is rejected, with the
    state error of the duplicate-loan check whenever the request is
    otherwise valid; a repay without a loan is rejected with a state error;
    no other call changes the flag; and along every run the loans opened
    exceed the loans closed by one when the flag is set and by none when it
    is not. *)
Theorem loan_lifecycle :
  (∀ e t a w, loan_active (pool w) (msg_sender e) t = true →
     ∃ r, borrow e t a w = Revert r ∧
          (t ∈ supportedTokens (pool w) → 0 < a → a ≤ totalDeposits_at (pool w) t →
           r = "Existing loan active" ∧ error_kind r = StateError))
  ∧ (∀ e t w, loan_active (pool w) (msg_sender e) t = false →
     repay e t w = Revert "No active loan" ∧ error_kind "No active loan" = StateError)
  ∧ (∀ e t a w w', borrow e t a w = Ok w' →
     loan_active (pool w) (msg_sender e) t = false ∧
     loan_active (pool w') (msg_sender e) t = true)
  ∧ (∀ e t w w', repay e t w = Ok w' →
     loan_active (pool w) (msg_sender e) t = true ∧
     loan_active (pool w') (msg_sender e) t = false)
  ∧ (∀ e c w w' u t, call e c w = Ok w' →
     loan_active (pool w') u t ≠ loan_active (pool w) u t →
     msg_sender e = u ∧ ((∃ a, c = CBorrow t a) ∨ c = CRepay t))
  ∧ (∀ this deployer oracle tw txs u t,
     let p := pool (run (mkWorld (constructor this deployer oracle) tw) txs) in
     opened p u t = closed p u t + (if loan_active p u t then 1 else 0)).
Proof.
  split_and!.
  - intros e t a w Hact. eexists. split; [by apply borrow_while_active|].
    intros Hs Ha Hl. unfold borrow_refusal.
    rewrite bool_decide_eq_true_2 by done.
    apply N.ltb_lt in Ha as ->. apply N.leb_le in Hl as ->. done.
  - intros e t w Hact. split; [by apply repay_while_inactive|done].
  - apply borrow_opens.
  - apply repay_closes.
  - apply loan_flag_frame.
  - intros. apply single_loan_run. by unfold single_loan.
Qed.

Lemma loan_lifecycle_witness :
  loan_active (pool (scenarioA_borrowed 1039)) A X = true
  ∧ borrow (mkEnv A 30) X 100 (scenarioA_borrowed 1039) = Revert "Existing loan active"
  ∧ loan_active (pool (scenarioA_repaid 1039)) A X = false
  ∧ repay (mkEnv A 40) X (scenarioA_repaid 1039) = Revert "No active loan"
  ∧ borrow (mkEnv A 20) X 400 (scenarioA_deposited 1039) = Ok (scenarioA_borrowed 1039)
  ∧ loan_active (pool (scenarioA_deposited 1039)) A X = false
  ∧ repay (mkEnv A (20 + YEAR)) X (scenarioA_borrowed 1039) = Ok (scenarioA_repaid 1039)
  ∧ (∃ a, CBorrow X 400 = CBorrow X a).
Proof.
  destruct loan_lifecycle as (Hborrow & Hrepay & Hopens & Hcloses & Hframe & _).
  assert (loan_active (pool (scenarioA_borrowed 1039)) A X = true) as Hon
    by (vm_compute; reflexivity).
  assert (loan_active (pool (scenarioA_repaid 1039)) A X = false) as Hoff
    by (vm_compute; reflexivity).
  assert (borrow (mkEnv A 20) X 400 (scenarioA_deposited 1039) = Ok (scenarioA_borrowed 1039))
    as Hb by (vm_compute; reflexivity).
  assert (repay (mkEnv A (20 + YEAR)) X (scenarioA_borrowed 1039) = Ok (scenarioA_repaid 1039))
    as Hr by (vm_compute; reflexivity).
  split_and!.
  - exact Hon.
  - destruct (Hborrow (mkEnv A 30) X 100 (scenarioA_borrowed 1039) Hon) as (r & Hrev & Hkind).
    destruct Hkind as [-> _].
    + vm_compute. set_solver.
    + vm_compute. reflexivity.
    + vm_compute. discriminate.
    + exact Hrev.
  - exact Hoff.
  - exact (proj1 (Hrepay (mkEnv A 40) X (scenarioA_repaid 1039) Hoff)).
  - exact Hb.
  - exact (proj1 (Hopens _ _ _ _ _ Hb)).
  - exact Hr.
  - destruct (Hframe (mkEnv A 20) (CBorrow X 400) (scenarioA_deposited 1039)
                (scenarioA_borrowed 1039) A X Hb) as [_ [Hcase|Hcase]].
    + vm_compute. discriminate.
    + exact Hcase.
    + discriminate Hcase.
Defined.

End LendingPoolProofs.

Section RemittanceProofs.
Import Token Remittance RemittanceObs.

Lemma map_sum_insert `{Countable K} {V : Type} (f : K → V → N) (m : gmap K V) k v :
  map_sum f (<[k:=v]> m) + from_option (f k) 0 (m !! k) = map_sum f m + f k v.
Proof.
  destruct (m !! k) as [old|] eqn:Hk; simpl.
  - by apply map_sum_insert_Some.
  - rewrite map_sum_insert_None by done. lia.
Qed.

Lemma escrowed_insert l i tr k :
  map_sum (λ _ t, pending_of k t) (<[i := tr]> (transfers l))
    + from_option (pending_of k) 0 (transfers l !! i)
  = escrowed l k + pending_of k tr.
Proof. unfold escrowed. apply (map_sum_insert (λ _ t, pending_of k t)). Qed.

Ltac unfold_admin :=
  unfold on_ledger, transferOwnership, renounceOwnership, addSupportedToken,
    removeSupportedToken, updateCorridorFee, updateDefaultFee, updateTransferLimits,
    updateTreasury, onlyOwner.

(** Administrative calls leave transfers, counter and tokens alone. *)
Lemma admin_frame e c w w' :
  match c with
  | CTransferOwnership _ | CRenounceOwnership | CAddSupportedToken _
  | CRemoveSupportedToken _ | CUpdateCorridorFee _ _ _ | CUpdateDefaultFee _
  | CUpdateTransferLimits _ _ | CUpdateTreasury _ => True
  | _ => False
  end →
  call e c w = Ok w' →
  self (ledger w') = self (ledger w) ∧
  transferCounter (ledger w') = transferCounter (ledger w) ∧
  transfers (ledger w') = transfers (ledger w) ∧
  tokens w' = tokens w.
Proof.
  destruct c; try done; intros _; simpl; unfold_admin; intros Hc; peel; by subst.
Qed.

Lemma sound_admin this e c w w' :
  match c with
  | CTransferOwnership _ | CRenounceOwnership | CAddSupportedToken _
  | CRemoveSupportedToken _ | CUpdateCorridorFee _ _ _ | CUpdateDefaultFee _
  | CUpdateTransferLimits _ _ | CUpdateTreasury _ => True
  | _ => False
  end →
  call e c w = Ok w' → sound this w → sound this w'.
Proof.
  intros Hadm Hc. destruct (admin_frame e c w w' Hadm Hc) as (Hs & Hn & Ht & Hk).
  unfold sound, escrowed. by rewrite Hs, Hn, Ht, Hk.
Qed.

Lemma transfers_at_absent l i :
  transfers l !! i = None → transfers_at l i = zeroTransfer.
Proof. unfold transfers_at. by intros ->. Qed.

Lemma transfers_at_present l i tr :
  transfers l !! i = Some tr → transfers_at l i = tr.
Proof. unfold transfers_at. by intros ->. Qed.

Lemma pending_of_not_pending k tr : status tr ≠ PENDING → pending_of k tr = 0.
Proof. intros Hs. unfold pending_of. rewrite bool_decide_eq_false_2; [done|]. by intros [? _]. Qed.

Lemma from_option_pending l i k :
  from_option (pending_of k) 0 (transfers l !! i) = pending_of k (transfers_at l i).
Proof.
  unfold transfers_at. destruct (transfers l !! i); simpl; [done|].
  unfold pending_of. simpl. by case_bool_decide.
Qed.

Lemma sound_complete this e i w l' :
  completeTransfer e i (ledger w) = Ok l' → sound this w →
  sound this (mkWorld l' (tokens w)).
Proof.
  unfold completeTransfer, onlyOwner. intros Hc. peel. subst l'.
  apply N.eqb_eq in E0. apply bool_decide_eq_true in E1.
  intros (Hself & Hone & Hkeys & Hpend & Hesc & Hall).
  unfold sound. simpl. split_and!; try done.
  - intros j tr. rewrite lookup_insert. case_decide as Hj; [|by apply Hkeys].
    subst j. intros [= <-]. simpl. split; [|done].
    destruct (transfers (ledger w) !! i) as [old|] eqn:Hold; [by eapply Hkeys|].
    rewrite (transfers_at_absent _ _ Hold) in E0. simpl in E0. lia.
  - intros j tr. rewrite lookup_insert. case_decide as Hj; [|by apply Hpend].
    intros [= <-]. done.
  - intros k. specialize (Hesc k).
    pose proof (escrowed_insert (ledger w) i (set_status COMPLETED (transfers_at (ledger w) i)) k) as Hs.
    rewrite from_option_pending in Hs.
    rewrite (pending_of_not_pending k (set_status _ _)) in Hs by done.
    unfold escrowed at 1. simpl. lia.
Qed.

Lemma pending_of_pending k tr :
  status tr = PENDING →
  pending_of k tr = if decide (k = tokenAddress tr) then amount tr else 0.
Proof.
  intros Hs. unfold pending_of.
  destruct (decide (k = tokenAddress tr)) as [->|Hne].
  - by rewrite bool_decide_eq_true_2.
  - rewrite bool_decide_eq_false_2; [done|]. intros [_ ?]. congruence.
Qed.

Lemma sound_cancel this e i w w' :
  cancelTransfer e i w = Ok w' → sound this w → sound this w'.
Proof.
  unfold cancelTransfer. intros Hc. peel. subst w'.
  apply bool_decide_eq_true in E0. simpl in *.
  intros (Hself & Hone & Hkeys & Hpend & Hesc & Hall).
  match goal with H : safeTransfer _ _ _ _ _ = Ok _ |- _ =>
    apply safeTransfer_Ok_inv in H
      as (_ & Hto & Hle & (tk & tk' & Htk & -> & Hal) & Hhold) end.
  destruct (transfers (ledger w) !! i) as [tr|] eqn:Htr;
    [|by rewrite (transfers_at_absent _ _ Htr) in Hto].
  rewrite (transfers_at_present _ _ _ Htr) in *.
  destruct (Hpend i tr Htr E0) as (_ & Hns & _).
  unfold sound. simpl. split_and!; try done.
  - intros j tr'. rewrite lookup_insert. case_decide as Hj; [|by apply Hkeys].
    subst j. intros [= <-]. simpl. by eapply Hkeys.
  - intros j tr'. rewrite lookup_insert. case_decide as Hj.
    + by intros [= <-].
    + intros Hj' Hst. destruct (Hpend j tr' Hj' Hst) as (? & ? & Hsome).
      split_and!; try done. by apply lookup_insert_is_Some'; right.
  - intros k. specialize (Hesc k).
    pose proof (escrowed_insert (ledger w) i (set_status CANCELLED tr) k) as Hs.
    rewrite Htr in Hs. simpl in Hs.
    rewrite (pending_of_not_pending k (set_status _ _)) in Hs by done.
    rewrite (pending_of_pending k tr E0) in Hs.
    unfold escrowed at 1. simpl. rewrite Hhold. unfold moved.
    rewrite Hself in *.
    repeat case_decide; simplify_eq; lia.
  - intros k tk0 spender. rewrite lookup_insert. case_decide as Hk.
    + intros [= <-]. subst k. unfold allowance. rewrite Hal. by eapply Hall.
    + by apply Hall.
Qed.

Lemma sound_initiate this e t a r o d w w' n :
  external this (e, CInitiateTransfer t a r o d) →
  initiateTransfer e t a r o d w = Ok (w', n) → sound this w → sound this w'.
Proof.
  unfold initiateTransfer, external. simpl. intros [Hs0 Hsthis] Hc. peel.
  simpl in *. subst w' n.
  intros (Hself & Hone & Hkeys & Hpend & Hesc & Hall).
  rewrite Hself in *.
  match goal with H : safeTransferFrom _ _ _ _ _ _ = Ok _ |- _ =>
    apply safeTransferFrom_Ok_inv in H
      as (_ & _ & _ & (tk & tk1 & Htk & -> & Hal1) & Hhold1) end.
  match goal with H : safeTransfer _ _ _ _ _ = Ok _ |- _ =>
    apply safeTransfer_Ok_inv in H
      as (_ & _ & _ & (tk2 & tk3 & Htk2 & -> & Hal2) & Hhold2) end.
  rewrite lookup_insert_eq in Htk2. injection Htk2 as <-.
  assert (transfers (ledger w) !! transferCounter (ledger w) = None) as Hfresh.
  { destruct (transfers (ledger w) !! transferCounter (ledger w)) as [tr|] eqn:Htr; [|done].
    apply Hkeys in Htr. lia. }
  unfold sound. simpl. split_and!; try done.
  - lia.
  - intros j tr. destruct (decide (transferCounter (ledger w) = j)) as [<-|Hj];
      [rewrite lookup_insert_eq | rewrite lookup_insert_ne by done].
    + intros [= <-]. simpl. split; [lia|done].
    + intros Hj'. apply Hkeys in Hj'. split; [lia|tauto].
  - intros j tr. destruct (decide (transferCounter (ledger w) = j)) as [<-|Hj];
      [rewrite lookup_insert_eq | rewrite lookup_insert_ne by done].
    + intros [= <-] _. simpl. split_and!; try done.
      apply lookup_insert_is_Some'. right. apply lookup_insert_is_Some'. by left.
    + intros Hj' Hst. destruct (Hpend j tr Hj' Hst) as (? & ? & Hsome).
      split_and!; try done.
      apply lookup_insert_is_Some'. right. apply lookup_insert_is_Some'. by right.
  - intros k. specialize (Hesc k).
    unfold escrowed at 1. simpl.
    rewrite (map_sum_insert_None (λ _ tr, pending_of k tr)) by done.
    rewrite pending_of_pending by done. simpl.
    fold (escrowed (ledger w) k).
    rewrite Hhold2. destruct (decide (k = t)) as [->|Hk].
    + unfold moved. rewrite !Hhold1. unfold moved.
      clear Hhold1 Hhold2.
      repeat destruct (decide _); try congruence; lia.
    + rewrite Hhold1. rewrite !decide_False by done. lia.
  - intros k tk0 spender. destruct (decide (t = k)) as [<-|Hk];
      [rewrite lookup_insert_eq | rewrite !lookup_insert_ne by done].
    + intros [= <-]. unfold allowance in *. rewrite Hal2.
      rewrite Hal1; [by eapply Hall|]. intros [= ? ?]. congruence.
    + by apply Hall.
Qed.

(** A token call that neither lowers the ledger's balance nor gives it an
    allowance keeps the invariant. *)
Lemma sound_on_token this t f w w' :
  (∀ tk tk', tokens w !! t = Some tk → f tk = Ok tk' →
     (∀ spender, allowance tk this spender = 0) →
     balance tk this ≤ balance tk' this ∧ ∀ spender, allowance tk' this spender = 0) →
  on_token t f w = Ok w' → sound this w → sound this w'.
Proof.
  intros Hf. unfold on_token.
  destruct (tokens w !! t) as [tk|] eqn:Htk; [|discriminate].
  intros Hc. peel. subst w'.
  intros (Hself & Hone & Hkeys & Hpend & Hesc & Hall).
  destruct (Hf tk v eq_refl E) as [Hbal Hal]; [by eauto|].
  unfold sound. simpl. split_and!; try done.
  - intros j tr Hj Hst. destruct (Hpend j tr Hj Hst) as (? & ? & Hsome).
    split_and!; try done. apply lookup_insert_is_Some'. by right.
  - intros k. specialize (Hesc k). rewrite holding_insert.
    destruct (decide (k = t)) as [->|Hk]; [|done].
    unfold holding in Hesc. rewrite Htk in Hesc. lia.
  - intros k tk0 spender. destruct (decide (t = k)) as [<-|Hk];
      [rewrite lookup_insert_eq | rewrite lookup_insert_ne by done].
    + by intros [= <-].
    + by apply Hall.
Qed.

Lemma sound_token_call this e c w w' :
  match c with
  | CTokenApprove _ _ _ | CTokenTransfer _ _ _ | CTokenTransferFrom _ _ _ _ => True
  | _ => False
  end →
  external this (e, c) → call e c w = Ok w' → sound this w → sound this w'.
Proof.
  destruct c; try done; intros _ [Hs0 Hsthis]; simpl in *; apply sound_on_token.
  - intros tk tk' _ Hc Hzero. unfold approve in Hc. peel. subst tk'.
    split; [done|]. intros sp. unfold allowance in *. simpl.
    rewrite lookup_insert_ne; [apply Hzero|]. intros [= ? ?]. congruence.
  - intros tk tk' _ Hc Hzero. unfold transfer in Hc.
    apply _transfer_Ok_inv in Hc as (_ & _ & _ & Hal & Hbal).
    split.
    + rewrite Hbal. unfold moved. repeat destruct (decide _); try congruence; lia.
    + intros sp. unfold allowance in *. rewrite Hal. apply Hzero.
  - intros tk tk' _ Hc Hzero. unfold transferFrom in Hc. peel.
    match goal with H : _spendAllowance _ _ _ _ = Ok _ |- _ =>
      pose proof (λ sp, _spendAllowance_le _ _ _ _ _ this sp H) as Hle;
      apply _spendAllowance_Ok_inv in H as (Hb & Hcap & _) end.
    match goal with H : _transfer _ _ _ _ = Ok _ |- _ =>
      apply _transfer_Ok_inv in H as (_ & _ & _ & Hal2 & Hbal) end.
    assert (from = this → amount0 = 0) as Hnone.
    { intros ->. rewrite Hzero in Hcap. destruct Hcap as [Hcap|Hcap]; [|lia].
      rewrite MAX_UINT256_eq in Hcap. lia. }
    split.
    + rewrite Hbal. unfold moved, balance. rewrite Hb.
      repeat destruct (decide _); try lia.
    + intros sp. specialize (Hle sp). rewrite Hzero in Hle.
      unfold allowance in *. rewrite Hal2. lia.
Qed.

Lemma sound_call this e c w w' :
  external this (e, c) → call e c w = Ok w' → sound this w → sound this w'.
Proof.
  intros Hext Hc.
  destruct c;
    first [ by (eapply sound_admin; [|exact Hc]; exact I)
          | by (eapply sound_token_call; [|exact Hext|exact Hc]; exact I)
          | idtac ].
  - simpl in Hc. apply bind_Ok_inv in Hc as ([w1 n] & Hi & [= <-]).
    simpl. eapply sound_initiate; eauto.
  - simpl in Hc. unfold on_ledger in Hc.
    apply bind_Ok_inv in Hc as (l' & Hl & [= <-]). by eapply sound_complete.
  - by eapply sound_cancel.
Qed.

Lemma sound_run this w txs :
  Forall (external this) txs → sound this w → sound this (run w txs).
Proof.
  revert w. induction txs as [|[e c] txs IH]; intros w Hall Hw; [done|].
  inversion_clear Hall as [|?? Hext Hall']. simpl. apply IH; [done|].
  unfold step. simpl. destruct (call e c w) as [w'|r] eqn:Hc; [|done].
  by eapply sound_call.
Qed.

Lemma sound_constructor this deployer _treasury l0 tw :
  constructor this deployer _treasury = Ok l0 → clean_start this tw →
  sound this (mkWorld l0 tw).
Proof.
  unfold constructor. intros Hc Hclean. peel. subst l0.
  unfold sound, escrowed. simpl. split_and!; try done.
  intros k. rewrite map_sum_empty. lia.
Qed.

Lemma reachable_sound w : reachable w → ∃ this, this ≠ 0 ∧ sound this w.
Proof.
  intros (this & deployer & tr & l0 & tw & txs & H0 & Hc & Hclean & Hext & ->).
  exists this. split; [done|].
  apply sound_run; [done|]. by eapply sound_constructor.
Qed.

Lemma reachable_step w e c :
  reachable w → external (self (ledger w)) (e, c) → reachable (step w (e, c)).
Proof.
  intros Hr Hext.
  destruct (reachable_sound w Hr) as (this' & _ & Hself & _).
  destruct Hr as (this & deployer & tr & l0 & tw & txs & H0 & Hc & Hclean & Hall & ->).
  assert (this' = this) as ->.
  { pose proof (sound_run this (mkWorld l0 tw) txs Hall
      (sound_constructor _ _ _ _ _ Hc Hclean)) as (Hs & _). congruence. }
  exists this, deployer, tr, l0, tw, (txs ++ [(e, c)])%list.
  split_and!; try done.
  - apply Forall_app. split; [done|]. constructor; [|done]. by rewrite Hself in Hext.
  - unfold run. by rewrite foldl_app.
Qed.



(** A record with a terminal status is stored, below the counter, under
    its own identifier. *)
Lemma terminal_stored this w i :
  sound this w → terminal (status (transfers_at (ledger w) i)) = true →
  ∃ tr, transfers (ledger w) !! i = Some tr ∧ id tr = i ∧ i < transferCounter (ledger w).
Proof.
  intros (_ & _ & Hkeys & _) Hterm. unfold transfers_at in Hterm.
  destruct (transfers (ledger w) !! i) as [tr|] eqn:Htr; [|discriminate].
  exists tr. destruct (Hkeys i tr Htr). done.
Qed.

Lemma terminal_not_pending st : terminal st = true → bool_decide (st = PENDING) = false.
Proof. by destruct st. Qed.

Lemma complete_terminal this e i w :
  sound this w → terminal (status (transfers_at (ledger w) i)) = true →
  completeTransfer e i (ledger w)
  = Revert (if owner (ledger w) =? msg_sender e then "Transfer not pending"
            else "Ownable: caller is not the owner").
Proof.
  intros Hs Hterm. destruct (terminal_stored this w i Hs Hterm) as (tr & Htr & Hid & _).
  unfold completeTransfer, onlyOwner.
  destruct (owner (ledger w) =? msg_sender e); [|done]. simpl.
  rewrite (transfers_at_present _ _ _ Htr) in *. rewrite Hid, N.eqb_refl. simpl.
  by rewrite terminal_not_pending.
Qed.

Lemma cancel_terminal this e i w :
  sound this w → terminal (status (transfers_at (ledger w) i)) = true →
  cancelTransfer e i w = Revert "Transfer not pending".
Proof.
  intros Hs Hterm. destruct (terminal_stored this w i Hs Hterm) as (tr & Htr & Hid & _).
  unfold cancelTransfer.
  rewrite (transfers_at_present _ _ _ Htr) in *. rewrite Hid, N.eqb_refl. simpl.
  by rewrite terminal_not_pending.
Qed.

Lemma status_stable_call this e c w w' i :
  sound this w → terminal (status (transfers_at (ledger w) i)) = true →
  call e c w = Ok w' →
  status (transfers_at (ledger w') i) = status (transfers_at (ledger w) i).
Proof.
  intros Hs Hterm Hc.
  destruct (terminal_stored this w i Hs Hterm) as (tr & Htr & Hid & Hlt).
  destruct c;
    try (by (edestruct (admin_frame e) as (_ & _ & Ht & _); [|exact Hc|];
             [exact I|unfold transfers_at; by rewrite Ht])).
  - simpl in Hc. apply bind_Ok_inv in Hc as ([w1 n] & Hi & [= <-]).
    unfold initiateTransfer in Hi. peel. simpl in *. subst w1.
    unfold transfers_at. simpl. rewrite lookup_insert_ne; [done|lia].
  - simpl in Hc. unfold on_ledger in Hc.
    apply bind_Ok_inv in Hc as (l' & Hl & [= <-]). simpl.
    destruct (decide (_transferId = i)) as [->|Hne].
    + by rewrite (complete_terminal this e i w Hs Hterm) in Hl.
    + unfold completeTransfer in Hl. peel. subst l'.
      unfold transfers_at. simpl. by rewrite lookup_insert_ne.
  - simpl in Hc. destruct (decide (_transferId = i)) as [->|Hne].
    + by rewrite (cancel_terminal this e i w Hs Hterm) in Hc.
    + unfold cancelTransfer in Hc. peel. subst w'.
      unfold transfers_at. simpl. by rewrite lookup_insert_ne.
  - simpl in Hc. unfold on_token in Hc. destruct (tokens w !! token); [|done].
    peel. by subst w'.
  - simpl in Hc. unfold on_token in Hc. destruct (tokens w !! token); [|done].
    peel. by subst w'.
  - simpl in Hc. unfold on_token in Hc. destruct (tokens w !! token); [|done].
    peel. by subst w'.
Qed.

Lemma status_stable_run this w txs i :
  Forall (external this) txs → sound this w →
  terminal (status (transfers_at (ledger w) i)) = true →
  status (transfers_at (ledger (run w txs)) i) = status (transfers_at (ledger w) i).
Proof.
  revert w. induction txs as [|[e c] txs IH]; intros w Hall Hs Hterm; [done|].
  inversion_clear Hall as [|?? Hext Hall'].
  change (run w ((e, c) :: txs)) with (run (step w (e, c)) txs).
  unfold step. simpl. destruct (call e c w) as [w'|r] eqn:Hc; [|by apply IH].
  pose proof (status_stable_call this e c w w' i Hs Hterm Hc) as Hst.
  rewrite <- Hst. apply IH; [done|by eapply sound_call|by rewrite Hst].
Qed.

(** C5. Once a transfer of a reachable ledger is COMPLETED or CANCELLED,
    completeTransfer and cancelTransfer on it fail for every caller (the
    owner and everybody else on cancel with the not-pending state error, a
    stranger on complete with the ownership error), and no sequence of
    transactions changes its status again. *)
Theorem transfer_terminality (w : World) (i : uint256) :
  reachable w →
  terminal (status (transfers_at (ledger w) i)) = true →
  (∀ e, completeTransfer e i (ledger w)
        = Revert (if owner (ledger w) =? msg_sender e then "Transfer not pending"
                  else "Ownable: caller is not the owner"))
  ∧ (∀ e, cancelTransfer e i w = Revert "Transfer not pending")
  ∧ error_kind "Transfer not pending" = StateError
  ∧ (∀ txs, Forall (external (self (ledger w))) txs →
       status (transfers_at (ledger (run w txs)) i) = status (transfers_at (ledger w) i)).
Proof.
  intros Hr Hterm. destruct (reachable_sound w Hr) as (this & _ & Hs).
  split_and!.
  - intros e. by eapply complete_terminal.
  - intros e. by eapply cancel_terminal.
  - done.
  - intros txs Hall. destruct Hs as (Hself & Hrest).
    rewrite Hself in Hall. eapply status_stable_run; [done| |done].
    by split.
Qed.

Lemma run_app w txs1 txs2 : run (run w txs1) txs2 = run w (txs1 ++ txs2).
Proof. unfold run. by rewrite foldl_app. Qed.

Lemma scenarioB_reachable txs :
  Forall (external REM) txs → reachable (run scenarioB_start txs).
Proof.
  intros Hall. exists REM, ADMIN, TREASURY, scenarioB_ledger, (tokens scenarioB_start), txs.
  split_and!; try done.
  intros k tk spender Hk. unfold scenarioB_start in Hk. simpl in Hk.
  apply lookup_singleton_Some in Hk as [<- <-].
  unfold allowance. simpl. by rewrite lookup_singleton_ne.
Qed.

Ltac prove_external :=
  repeat first [ apply Forall_nil_2 | apply Forall_cons_2; [split; discriminate|] ].

Lemma transfer_terminality_witness :
  reachable scenarioB_cancelled
  ∧ terminal (status (transfers_at (ledger scenarioB_cancelled) 1)) = true
  ∧ completeTransfer (mkEnv ADMIN 40) 1 (ledger scenarioB_cancelled)
    = Revert "Transfer not pending"
  ∧ cancelTransfer (mkEnv S 40) 1 scenarioB_cancelled = Revert "Transfer not pending".
Proof.
  assert (reachable scenarioB_cancelled) as Hr.
  { unfold scenarioB_cancelled, scenarioB_sent, scenarioB_ready.
    rewrite !run_app. apply scenarioB_reachable. simpl. prove_external. }
  assert (terminal (status (transfers_at (ledger scenarioB_cancelled) 1)) = true) as Ht
    by (vm_compute; reflexivity).
  destruct (transfer_terminality scenarioB_cancelled 1 Hr Ht) as (Hcomplete & Hcancel & _).
  split_and!; [exact Hr|exact Ht| |].
  - exact (Hcomplete (mkEnv ADMIN 40)).
  - exact (Hcancel (mkEnv S 40)).
Defined.

Lemma dense_call e c w w' :
  call e c w = Ok w' → dense (ledger w) → dense (ledger w').
Proof.
  intros Hc Hd.
  destruct c;
    try (by (edestruct (admin_frame e) as (_ & Hn & Ht & _); [|exact Hc|];
             [exact I|unfold dense; by rewrite Hn, Ht])).
  - simpl in Hc. apply bind_Ok_inv in Hc as ([w1 n] & Hi & [= <-]).
    unfold initiateTransfer in Hi. peel. simpl in *. subst w1.
    intros i H1 Hlt. simpl in *.
    destruct (decide (transferCounter (ledger w) = i)) as [<-|Hne].
    + rewrite lookup_insert_eq. eauto.
    + rewrite lookup_insert_ne by done. apply Hd; lia.
  - simpl in Hc. unfold on_ledger in Hc.
    apply bind_Ok_inv in Hc as (l' & Hl & [= <-]). simpl.
    unfold completeTransfer in Hl. peel. subst l'.
    intros i H1 Hlt. simpl in *. apply lookup_insert_is_Some'. right. by apply Hd.
  - simpl in Hc. unfold cancelTransfer in Hc. peel. subst w'.
    intros i H1 Hlt. simpl in *. apply lookup_insert_is_Some'. right. by apply Hd.
  - simpl in Hc. unfold on_token in Hc. destruct (tokens w !! token); [|done].
    peel. by subst w'.
  - simpl in Hc. unfold on_token in Hc. destruct (tokens w !! token); [|done].
    peel. by subst w'.
  - simpl in Hc. unfold on_token in Hc. destruct (tokens w !! token); [|done].
    peel. by subst w'.
Qed.

Lemma dense_run w txs : dense (ledger w) → dense (ledger (run w txs)).
Proof.
  revert w. induction txs as [|[e c] txs IH]; intros w Hw; [done|].
  change (run w ((e, c) :: txs)) with (run (step w (e, c)) txs).
  apply IH. unfold step. simpl.
  destruct (call e c w) as [w'|r] eqn:Hc; [|done]. by eapply dense_call.
Qed.

Lemma reachable_dense w : reachable w → dense (ledger w).
Proof.
  intros (this & deployer & tr & l0 & tw & txs & H0 & Hc & Hclean & Hext & ->).
  apply dense_run. unfold constructor in Hc. peel. subst l0.
  intros i H1 Hlt. simpl in *. lia.
Qed.

Lemma pending_le_escrowed l i tr :
  transfers l !! i = Some tr → status tr = PENDING →
  amount tr ≤ escrowed l (tokenAddress tr).
Proof.
  intros Htr Hst. unfold escrowed.
  rewrite (map_sum_delete (λ _ t, pending_of (tokenAddress tr) t) _ i tr Htr).
  rewrite pending_of_pending by done. rewrite decide_True by done. lia.
Qed.

(** C6. In a reachable ledger, cancelTransfer on a PENDING transfer (any
    identifier handed out by initiateTransfer), called by its sender or by
    the owner, succeeds: the status becomes CANCELLED, the sender receives
    exactly the principal out of the ledger's holding, no other holding
    moves (the fee stays with the treasury), and a further cancelTransfer
    on the same identifier fails with the not-pending state error. *)
Theorem cancel_refunds_principal (w : World) (i : uint256) (e : Env) :
  let tr := transfers_at (ledger w) i in
  reachable w →
  1 ≤ i → i < transferCounter (ledger w) →
  status tr = PENDING →
  msg_sender e = sender tr ∨ msg_sender e = owner (ledger w) →
  ∃ w', cancelTransfer e i w = Ok w'
    ∧ status (transfers_at (ledger w') i) = CANCELLED
    ∧ holding (tokens w') (tokenAddress tr) (sender tr)
      = holding (tokens w) (tokenAddress tr) (sender tr) + amount tr
    ∧ holding (tokens w') (tokenAddress tr) (self (ledger w)) + amount tr
      = holding (tokens w) (tokenAddress tr) (self (ledger w))
    ∧ (∀ k who, k ≠ tokenAddress tr ∨ (who ≠ sender tr ∧ who ≠ self (ledger w)) →
         holding (tokens w') k who = holding (tokens w) k who)
    ∧ (∀ e', cancelTransfer e' i w' = Revert "Transfer not pending")
    ∧ error_kind "Transfer not pending" = StateError.
Proof.
  intros tr0 Hr H1 Hlt Hst Hauth.
  destruct (reachable_dense w Hr i H1 Hlt) as [tr Htr].
  assert (tr0 = tr) as -> by (unfold tr0; by rewrite (transfers_at_present _ _ _ Htr)).
  destruct (reachable_sound w Hr) as (this & Hthis & Hs).
  pose proof Hs as (Hself & Hone & Hkeys & Hpend & Hesc & Hall).
  destruct (Hkeys i tr Htr) as [_ Hid].
  destruct (Hpend i tr Htr Hst) as (Hs0 & Hsthis & Hsome).
  pose proof (pending_le_escrowed _ _ _ Htr Hst) as Hle.
  specialize (Hesc (tokenAddress tr)).
  destruct (safeTransfer_Ok this (tokenAddress tr) (sender tr) (amount tr) (tokens w))
    as [tw' Htw']; try done; [lia|].
  assert (cancelTransfer e i w
          = Ok (mkWorld (emit (TransferCancelled i)
                           (set_transfers (<[i := set_status CANCELLED tr]> (transfers (ledger w)))
                              (ledger w))) tw')) as Hcall.
  { unfold cancelTransfer. rewrite (transfers_at_present _ _ _ Htr).
    rewrite Hid, N.eqb_refl. simpl.
    rewrite bool_decide_eq_true_2 by done. simpl.
    assert ((msg_sender e =? sender tr) || (msg_sender e =? owner (ledger w)) = true) as ->.
    { apply orb_true_iff. destruct Hauth as [->| ->]; [left|right]; apply N.eqb_refl. }
    simpl. rewrite Hself, Htw'. done. }
  eexists. split; [exact Hcall|].
  pose proof (sound_cancel this e i w _ Hcall Hs) as Hs'.
  apply safeTransfer_Ok_inv in Htw' as (_ & _ & _ & _ & Hhold).
  simpl. rewrite Hself. split_and!.
  - unfold transfers_at. simpl. by rewrite lookup_insert_eq.
  - rewrite Hhold, decide_True by done. unfold moved.
    repeat destruct (decide _); try congruence.
  - rewrite Hhold, decide_True by done. unfold moved.
    repeat destruct (decide _); try congruence; lia.
  - intros k who Hfar. rewrite Hhold. destruct (decide (k = tokenAddress tr)); [|done].
    destruct Hfar as [?|[? ?]]; [done|]. unfold moved.
    repeat destruct (decide _); try congruence.
  - intros e'. eapply cancel_terminal; [exact Hs'|].
    unfold transfers_at. simpl. by rewrite lookup_insert_eq.
  - done.
Qed.

Lemma cancel_refunds_principal_witness :
  reachable scenarioB_sent
  ∧ transfers_at (ledger scenarioB_sent) 1
    = mkTransfer 1 S "+52-555-0100" X 1000 8 "US" "MX" 20 PENDING
  ∧ ∃ w', cancelTransfer (mkEnv S 30) 1 scenarioB_sent = Ok w'
      ∧ holding (tokens w') X S = holding (tokens scenarioB_sent) X S + 1000
      ∧ ∀ e', cancelTransfer e' 1 w' = Revert "Transfer not pending".
Proof.
  assert (reachable scenarioB_sent) as Hr.
  { unfold scenarioB_sent, scenarioB_ready.
    rewrite !run_app. apply scenarioB_reachable. simpl. prove_external. }
  assert (transfers_at (ledger scenarioB_sent) 1
          = mkTransfer 1 S "+52-555-0100" X 1000 8 "US" "MX" 20 PENDING) as Htr
    by (vm_compute; reflexivity).
  split; [exact Hr|]. split; [exact Htr|].
  destruct (cancel_refunds_principal scenarioB_sent 1 (mkEnv S 30))
    as (w' & Hc & _ & Hrefund & _ & _ & Hagain & _).
  - exact Hr.
  - vm_compute. discriminate.
  - vm_compute. reflexivity.
  - rewrite Htr. reflexivity.
  - left. rewrite Htr. reflexivity.
  - exists w'. rewrite Htr in Hrefund. split_and!; [exact Hc|exact Hrefund|exact Hagain].
Defined.

(** The rate [calculateFee] applies: the corridor's when it is not zero,
    the default one otherwise. *)
Lemma calculateFee_rate l o d a :
  let rate := if corridorFees_at l o d =? 0 then defaultFee l else corridorFees_at l o d in
  calculateFee l o d a
  = if a * rate <=? MAX_UINT256 then Ok (a * rate / 10000) else Revert "Panic(0x11)".
Proof.
  unfold calculateFee, checked_mul. simpl.
  destruct (corridorFees_at l o d =? 0); by destruct (_ <=? MAX_UINT256).
Qed.

(** C8. calculateFee reads nothing of the state but the corridor's rate and
    the default rate, so equal inputs in states that agree on these give
    equal outputs; on amount 0 it returns 0; for a corridor with a stored
    (non-zero) rate it returns amount times that rate over 10000, for a
    corridor without one amount times the default rate over 10000,
    whenever the product fits in 256 bits, and it aborts on overflow
    instead of returning anything else. *)
Theorem calculateFee_pure (l : Ledger) (o d : string) (a : uint256) :
  (∀ l', corridorFees_at l' o d = corridorFees_at l o d → defaultFee l' = defaultFee l →
     calculateFee l' o d a = calculateFee l o d a)
  ∧ calculateFee l o d 0 = Ok 0
  ∧ (corridorFees_at l o d ≠ 0 → a * corridorFees_at l o d ≤ MAX_UINT256 →
     calculateFee l o d a = Ok (a * corridorFees_at l o d / 10000))
  ∧ (corridorFees_at l o d = 0 → a * defaultFee l ≤ MAX_UINT256 →
     calculateFee l o d a = Ok (a * defaultFee l / 10000))
  ∧ (∀ r, calculateFee l o d a = Revert r →
     r = "Panic(0x11)" ∧
     MAX_UINT256 < a * (if corridorFees_at l o d =? 0 then defaultFee l
                        else corridorFees_at l o d)).
Proof.
  split_and!.
  - intros l' Hc Hd. rewrite !calculateFee_rate. simpl. by rewrite Hc, Hd.
  - rewrite calculateFee_rate. simpl. done.
  - intros Hne Hfit. rewrite calculateFee_rate. simpl.
    apply N.eqb_neq in Hne as ->. by apply N.leb_le in Hfit as ->.
  - intros Hz Hfit. rewrite calculateFee_rate. simpl.
    rewrite Hz. simpl. by apply N.leb_le in Hfit as ->.
  - intros r. rewrite calculateFee_rate. simpl.
    destruct (_ <=? MAX_UINT256) eqn:Hfit; [discriminate|].
    apply N.leb_gt in Hfit. by intros [= <-].
Qed.

Lemma calculateFee_pure_witness :
  corridorFees_at (ledger scenarioB_ready) "US" "MX" ≠ 0
  ∧ corridorFees_at (ledger scenarioB_ready) "MX" "US" = 0
  ∧ calculateFee (ledger scenarioB_ready) "US" "MX" 1000 = Ok (1000 * 80 / 10000)
  ∧ calculateFee (ledger scenarioB_ready) "MX" "US" 1000 = Ok (1000 * 50 / 10000).
Proof.
  assert (corridorFees_at (ledger scenarioB_ready) "US" "MX" ≠ 0) as Hset
    by (vm_compute; discriminate).
  assert (corridorFees_at (ledger scenarioB_ready) "MX" "US" = 0) as Hunset
    by (vm_compute; reflexivity).
  split; [exact Hset|]. split; [exact Hunset|]. split.
  - destruct (calculateFee_pure (ledger scenarioB_ready) "US" "MX" 1000) as (_ & _ & Hc & _).
    apply (Hc Hset). vm_compute. discriminate.
  - destruct (calculateFee_pure (ledger scenarioB_ready) "MX" "US" 1000) as (_ & _ & _ & Hd & _).
    apply (Hd Hunset). vm_compute. discriminate.
Defined.

(** C10. After updateCorridorFee has stored the rate 0 for a corridor,
    calculateFee charges that corridor the default rate, exactly as it does
    for a corridor that was never set; with a positive default rate the
    fee on any amount of at least 10000 over the rate is positive. *)
Theorem zero_corridor_fee_falls_back (e : Env) (o d : string) (l l' : Ledger) (a : uint256) :
  updateCorridorFee e o d 0 l = Ok l' →
  a * defaultFee l ≤ MAX_UINT256 →
  corridorFees l' !! (o, d) = Some 0
  ∧ defaultFee l' = defaultFee l
  ∧ calculateFee l' o d a = Ok (a * defaultFee l / 10000)
  ∧ calculateFee l' o d a
    = calculateFee (set_corridorFees (delete (o, d) (corridorFees l')) l') o d a
  ∧ (10000 ≤ a * defaultFee l → ∃ f, calculateFee l' o d a = Ok f ∧ 0 < f).
Proof.
  unfold updateCorridorFee, onlyOwner. intros Hc Hfit. peel. subst l'.
  assert (∀ m, calculateFee
            (emit (CorridorFeeUpdated o d 0) (set_corridorFees m l)) o d a
          = if (default 0 (m !! (o, d))) =? 0
            then Ok (a * defaultFee l / 10000)
            else calculateFee (set_corridorFees m l) o d a) as Hfee.
  { intros m. rewrite !calculateFee_rate. unfold corridorFees_at. simpl.
    destruct (default 0 (m !! (o, d)) =? 0); [|done].
    by apply N.leb_le in Hfit as ->. }
  simpl. split_and!.
  - by rewrite lookup_insert_eq.
  - done.
  - rewrite Hfee. by rewrite lookup_insert_eq.
  - rewrite Hfee, lookup_insert_eq. simpl.
    rewrite calculateFee_rate. unfold corridorFees_at. simpl.
    rewrite lookup_delete_eq. simpl. by apply N.leb_le in Hfit as ->.
  - intros Hbig. eexists. split; [rewrite Hfee; by rewrite lookup_insert_eq|].
    apply N.div_str_pos. lia.
Qed.

Lemma zero_corridor_fee_falls_back_witness :
  updateCorridorFee (mkEnv ADMIN 50) "US" "MX" 0 (ledger scenarioB_ready) = Ok scenarioB_zeroed
  ∧ 1000 * defaultFee (ledger scenarioB_ready) ≤ MAX_UINT256
  ∧ calculateFee scenarioB_zeroed "US" "MX" 1000
    = Ok (1000 * defaultFee (ledger scenarioB_ready) / 10000).
Proof.
  assert (updateCorridorFee (mkEnv ADMIN 50) "US" "MX" 0 (ledger scenarioB_ready)
          = Ok scenarioB_zeroed) as Hset by (vm_compute; reflexivity).
  assert (1000 * defaultFee (ledger scenarioB_ready) ≤ MAX_UINT256) as Hfit
    by (vm_compute; discriminate).
  split; [exact Hset|]. split; [exact Hfit|].
  destruct (zero_corridor_fee_falls_back (mkEnv ADMIN 50) "US" "MX"
              (ledger scenarioB_ready) scenarioB_zeroed 1000 Hset Hfit) as (_ & _ & Hfee & _).
  exact Hfee.
Defined.

(** C7. With the (US, MX) corridor at 80 basis points, initiateTransfer of
    1000 within the limits, by a sender who holds and has approved 1008,
    computes the fee 8, records the transfer as PENDING under the next
    identifier, takes 1008 from the sender, passes 8 on to the treasury and
    keeps 1000 in the ledger. *)
Theorem scenario_B_transfer (w : World) (e : Env) (tok : address) (rid : string) (tk : ERC20) :
  let l := ledger w in
  corridorFees_at l "US" "MX" = 80 →
  tok ∈ supportedTokens l →
  minTransferAmount l ≤ 1000 → 1000 ≤ maxTransferAmount l →
  nonempty rid = true →
  tokens w !! tok = Some tk →
  1008 ≤ balance tk (msg_sender e) →
  1008 ≤ allowance tk (msg_sender e) (self l) →
  transferCounter l < MAX_UINT256 →
  msg_sender e ≠ 0 → self l ≠ 0 → treasury l ≠ 0 →
  msg_sender e ≠ self l → treasury l ≠ self l → treasury l ≠ msg_sender e →
  ∃ w', initiateTransfer e tok 1000 rid "US" "MX" w = Ok (w', transferCounter l)
    ∧ calculateFee l "US" "MX" 1000 = Ok 8
    ∧ transfers (ledger w') !! transferCounter l
      = Some (mkTransfer (transferCounter l) (msg_sender e) rid tok 1000 8 "US" "MX"
                (block_timestamp e) PENDING)
    ∧ holding (tokens w') tok (msg_sender e) + 1008 = holding (tokens w) tok (msg_sender e)
    ∧ holding (tokens w') tok (treasury l) = holding (tokens w) tok (treasury l) + 8
    ∧ holding (tokens w') tok (self l) = holding (tokens w) tok (self l) + 1000.
Proof.
  intros l Hrate Hsup Hmin Hmax Hrid Htk Hbal Hallow Hctr Hs0 Hself0 Htr0 Hsself Htrself Htrs.
  assert (calculateFee l "US" "MX" 1000 = Ok 8) as Hfee.
  { rewrite calculateFee_rate. simpl. rewrite Hrate. vm_compute. reflexivity. }
  destruct (safeTransferFrom_Ok (self l) tok (msg_sender e) (self l) 1008 (tokens w) tk)
    as [tw1 Htw1]; try done.
  pose proof (safeTransferFrom_Ok_inv _ _ _ _ _ _ _ Htw1)
    as (_ & _ & Hheld & (tk0 & tk1 & Htk0 & -> & _) & Hhold1).
  destruct (safeTransfer_Ok (self l) tok (treasury l) 8 (<[tok := tk1]> (tokens w)))
    as [tw2 Htw2]; try done.
  { apply lookup_insert_is_Some'. by left. }
  { rewrite Hhold1, decide_True by done. unfold moved.
    repeat destruct (decide _); try congruence; lia. }
  pose proof (safeTransfer_Ok_inv _ _ _ _ _ _ Htw2) as (_ & _ & _ & _ & Hhold2).
  eexists. split_and!.
  - unfold initiateTransfer. fold l.
    rewrite bool_decide_eq_true_2 by done.
    apply N.leb_le in Hmin as ->. apply N.leb_le in Hmax as ->.
    rewrite Hrid. change (nonempty "US") with true. change (nonempty "MX") with true.
    rewrite Hfee. cbn [require mbind result_bind].
    change (checked_add 1000 8) with (Ok (A:=N) 1008). cbn [mbind result_bind].
    unfold balanceOf. rewrite Htk. cbn [mbind result_bind].
    apply N.leb_le in Hbal as ->. cbn [require mbind result_bind].
    rewrite checked_add_Ok by lia. cbn [mbind result_bind]. simpl self. simpl treasury.
    fold l. rewrite Htw1. cbn [mbind result_bind]. rewrite Htw2. cbn [mbind result_bind].
    reflexivity.
  - done.
  - simpl. by rewrite lookup_insert_eq.
  - simpl. rewrite Hhold2. unfold moved. rewrite !Hhold1. unfold moved.
    clear Hhold1 Hhold2.
    repeat destruct (decide _); try congruence.
    unfold holding in *. rewrite Htk in *. lia.
  - simpl. rewrite Hhold2. unfold moved. rewrite !Hhold1. unfold moved.
    clear Hhold1 Hhold2.
    repeat destruct (decide _); try congruence.
  - simpl. rewrite Hhold2. unfold moved. rewrite !Hhold1. unfold moved.
    clear Hhold1 Hhold2.
    repeat destruct (decide _); try congruence. lia.
Qed.

Lemma scenario_B_transfer_witness :
  corridorFees_at (ledger scenarioB_ready) "US" "MX" = 80
  ∧ ∃ w', initiateTransfer (mkEnv S 20) X 1000 "+52-555-0100" "US" "MX" scenarioB_ready
          = Ok (w', 1)
      ∧ calculateFee (ledger scenarioB_ready) "US" "MX" 1000 = Ok 8
      ∧ status (transfers_at (ledger w') 1) = PENDING
      ∧ holding (tokens w') X S + 1008 = 5000
      ∧ holding (tokens w') X TREASURY = 8
      ∧ holding (tokens w') X REM = 1000.
Proof.
  assert (corridorFees_at (ledger scenarioB_ready) "US" "MX" = 80) as Hrate
    by (vm_compute; reflexivity).
  split; [exact Hrate|].
  destruct (scenario_B_transfer scenarioB_ready (mkEnv S 20) X "+52-555-0100"
              (mkERC20 {[ S := 5000 ]} {[ (S, REM) := 5000 ]}))
    as (w' & Hcall & Hfee & Hrec & Hs & Ht & Hl).
  - exact Hrate.
  - apply (bool_decide_unpack _). vm_compute. exact I.
  - vm_compute. discriminate.
  - vm_compute. discriminate.
  - vm_compute. reflexivity.
  - vm_compute. reflexivity.
  - vm_compute. discriminate.
  - vm_compute. discriminate.
  - vm_compute. reflexivity.
  - discriminate.
  - discriminate.
  - discriminate.
  - discriminate.
  - discriminate.
  - discriminate.
  - exists w'. split_and!.
    + exact Hcall.
    + exact Hfee.
    + unfold transfers_at. change (transferCounter (ledger scenarioB_ready)) with 1 in Hrec.
      by rewrite Hrec.
    + exact Hs.
    + exact Ht.
    + exact Hl.
Defined.

End RemittanceProofs.

Section RiskOracleProofs.
Import RiskOracle RiskOracleObs.

(** What getRiskTier answers, case by case. *)
Lemma getRiskTier_cases (e : Env) (u : address) (o : Oracle) :
  getRiskTier e u o
  = if negb (bool_decide (msg_sender e ∈ authorizedCallers o) || (msg_sender e =? owner o))
    then Revert "Not authorized"
    else match userRiskTiers o !! u with
         | None | Some LOW | Some MEDIUM => Ok (uint8_of_tier MEDIUM)
         | Some HIGH => if u =? 0 then Ok (uint8_of_tier MEDIUM) else Ok (uint8_of_tier HIGH)
         end.
Proof.
  unfold getRiskTier, onlyAuthorized, userRiskTiers_at.
  destruct (bool_decide _ || _); simpl; [|done].
  destruct (userRiskTiers o !! u) as [[]|]; simpl; by destruct (u =? 0).
Qed.

(** C3 (the code departs from the claim). For an authorized reader the
    tiers MEDIUM and HIGH come back as stored and an account never assessed
    reads MEDIUM, a stranger is turned away, but an account the updater has
    explicitly set to LOW reads MEDIUM as well: the stored LOW is the
    enumeration's zero, which the function takes for "never set". *)
Theorem explicit_LOW_reads_MEDIUM :
  userRiskTiers (assessed LOW) !! BOB = Some LOW
  ∧ getRiskTier (mkEnv LENDER 20) BOB (assessed LOW) = Ok (uint8_of_tier MEDIUM)
  ∧ uint8_of_tier MEDIUM ≠ uint8_of_tier LOW
  ∧ checkRiskTierPublic BOB (assessed LOW) = "MEDIUM"
  ∧ getRiskTier (mkEnv LENDER 20) BOB (assessed MEDIUM) = Ok (uint8_of_tier MEDIUM)
  ∧ getRiskTier (mkEnv LENDER 20) BOB (assessed HIGH) = Ok (uint8_of_tier HIGH)
  ∧ getRiskTier (mkEnv LENDER 20) BOB deployed = Ok (uint8_of_tier MEDIUM)
  ∧ getRiskTier (mkEnv STRANGER 20) BOB (assessed HIGH) = Revert "Not authorized"
  ∧ error_kind "Not authorized" = AuthorizationError.
Proof. split_and!; try (vm_compute; reflexivity). vm_compute. discriminate. Qed.

End RiskOracleProofs.

Section VoiceInterfaceProofs.
Import Keccak VoiceInterface VoiceInterfaceObs.

(** Known answer of the primitive: the digest of the empty input. *)
Lemma keccak256_empty :
  keccak256 [] = 0xc5d2460186f7233c927e7db2dcc703c0e500b653ca82273b7bfad8045d85a470.
Proof. vm_compute. reflexivity. Qed.

Lemma be_value_bound (bs : list N) (acc : N) :
  Forall (λ b, b < 256) bs →
  foldl (λ acc b, acc * 256 + b) acc bs + 1 ≤ (acc + 1) * 256 ^ N.of_nat (length bs).
Proof.
  revert acc. induction bs as [|b bs IH]; intros acc Hall.
  - simpl. lia.
  - inversion_clear Hall as [|?? Hb Hbs]. simpl foldl.
    etrans; [apply (IH _ Hbs)|].
    replace (N.of_nat (length (b :: bs))) with (N.succ (N.of_nat (length bs)))
      by (simpl length; lia).
    rewrite N.pow_succ_r'.
    rewrite N.mul_assoc. apply N.mul_le_mono_r. lia.
Qed.

Lemma keccak256_bytes_small (msg : list N) : Forall (λ b, b < 256) (keccak256_bytes msg).
Proof.
  unfold keccak256_bytes. apply Forall_take, Forall_bind, Forall_forall.
  intros l _. unfold lane_bytes. apply Forall_fmap, Forall_forall.
  intros i _. simpl. by apply N.mod_lt.
Qed.

Lemma keccak256_fits (msg : list N) : keccak256 msg < 2 ^ 256.
Proof.
  unfold keccak256, be_value.
  pose proof (be_value_bound (keccak256_bytes msg) 0 (keccak256_bytes_small msg)) as Hb.
  assert (256 ^ N.of_nat (length (keccak256_bytes msg)) ≤ 2 ^ 256) as Hlen.
  { change (2 ^ 256) with (256 ^ 32). apply N.pow_le_mono_r; [done|].
    unfold keccak256_bytes. rewrite length_take. lia. }
  lia.
Qed.

Lemma registerAction_active e h tc fs d r :
  active (actions_at r h) = true →
  registerAction e h tc fs d r
  = Revert (if negb (owner r =? msg_sender e) then "Ownable: caller is not the owner"
            else if h =? 0 then "Invalid command hash"
            else if tc =? 0 then "Invalid target contract"
            else if fs =? 0 then "Invalid function selector"
            else if negb (0 <? String.length d)%nat then "Invalid description"
            else "Command already registered").
Proof.
  intros Hact. unfold registerAction, onlyOwner. rewrite Hact.
  destruct (owner r =? msg_sender e); simpl; [|done].
  destruct (h =? 0); simpl; [done|].
  destruct (tc =? 0); simpl; [done|].
  destruct (fs =? 0); simpl; [done|].
  by destruct (0 <? String.length d)%nat.
Qed.

(** C9. generateCommandHash is a function of its two strings alone: equal
    language and command give the equal hash, and the hash fits 32 bytes.
    registerAction under a hash that is already active fails for every
    caller and every argument, with the already-registered state error
    when the owner passes valid arguments, and the registry, in particular
    the stored action, stays as it was. *)
Theorem hash_deterministic_register_once :
  (∀ l1 c1 l2 c2, l1 = l2 → c1 = c2 → generateCommandHash l1 c1 = generateCommandHash l2 c2)
  ∧ (∀ l c, generateCommandHash l c < 2 ^ 256)
  ∧ (∀ e h tc fs d r, active (actions_at r h) = true →
       ∃ reason, registerAction e h tc fs d r = Revert reason
         ∧ commit r (registerAction e h tc fs d r) = r
         ∧ getAction (commit r (registerAction e h tc fs d r)) h = getAction r h
         ∧ (owner r = msg_sender e → h ≠ 0 → tc ≠ 0 → fs ≠ 0 → d ≠ EmptyString →
            reason = "Command already registered" ∧ error_kind reason = StateError)).
Proof.
  split_and!.
  - by intros l1 c1 l2 c2 -> ->.
  - intros l c. apply keccak256_fits.
  - intros e h tc fs d r Hact. rewrite (registerAction_active e h tc fs d r Hact).
    eexists. split_and!; try done.
    intros Hown Hh Htc Hfs Hd.
    apply N.eqb_eq in Hown as ->. apply N.eqb_neq in Hh as ->.
    apply N.eqb_neq in Htc as ->. apply N.eqb_neq in Hfs as ->.
    destruct d; [done|]. done.
Qed.

Lemma hash_deterministic_register_once_witness :
  active (actions_at registered sendHash) = true
  ∧ generateCommandHash "en" "send money to {recipient}" = sendHash
  ∧ registerAction (mkEnv OWNER 9) sendHash POOL 0x87654321 "Another action" registered
    = Revert "Command already registered"
  ∧ getAction (commit registered
                 (registerAction (mkEnv OWNER 9) sendHash POOL 0x87654321 "Another action"
                    registered)) sendHash
    = mkActionInfo REM 0x12345678 "Send money to a recipient" true.
Proof.
  assert (active (actions_at registered sendHash) = true) as Hact
    by (vm_compute; reflexivity).
  destruct hash_deterministic_register_once as (Hdet & _ & Hreg).
  destruct (Hreg (mkEnv OWNER 9) sendHash POOL 0x87654321 "Another action" registered Hact)
    as (reason & Hrev & _ & Hkeep & Hkind).
  destruct Hkind as [-> _].
  - vm_compute. reflexivity.
  - vm_compute. discriminate.
  - discriminate.
  - discriminate.
  - discriminate.
  - split_and!.
    + exact Hact.
    + exact (Hdet "en" "send money to {recipient}" "en" "send money to {recipient}"
               eq_refl eq_refl).
    + exact Hrev.
    + rewrite Hkeep. vm_compute. reflexivity.
Defined.

End VoiceInterfaceProofs.
